(** * TicTacToe: the game engine [TicTacToeGame] and its command router
      [TicTacToeGameArea]

    Shallow embedding of
    [src/ip1-handout/src/town/games/TicTacToeGame.ts].

    The TypeScript classes mutate [this.state] and [this._players] in place.
    Every [throw] of the engine precedes every mutation of the method it is
    in, so a method is modelled as a function from the object before the call
    to a completion: [Return] with the object after the call, or [Throw] with
    the thrown value, the object being then as it was before the call. *)

From Stdlib Require Import String List Bool Arith Lia.
Import ListNotations.

Local Open Scope string_scope.
Local Open Scope list_scope.

(** ** JavaScript values that can be thrown, and completions *)

(** The only values this code throws are [Error] objects; the [catch] block of
    the router compares the caught value with strings, so both are values. *)
Inductive JsValue : Type :=
| JsString (s : string)
| JsError (message : string).

Inductive completion (A : Type) : Type :=
| Return (a : A)
| Throw (v : JsValue).

Arguments Return {A} a.
Arguments Throw {A} v.

Definition bind {A B : Type} (c : completion A) (k : A -> completion B)
  : completion B :=
  match c with
  | Return a => k a
  | Throw v => Throw v
  end.

Notation "a <- c ;; k" := (bind c (fun a => k))
  (at level 61, c at next level, right associativity).

(** [v === s] for a string [s]: an object is never strictly equal to a
    string. *)
Definition strict_eq_string (v : JsValue) (s : string) : bool :=
  match v with
  | JsString t => String.eqb t s
  | JsError _ => false
  end.

(** [String(v)], the message [new Error(v)] gets. *)
Definition to_message (v : JsValue) : string :=
  match v with
  | JsString t => t
  | JsError m => "Error: " ++ m
  end.

(** Truthiness of a [string | undefined]: [undefined] and the empty string are
    falsy. *)
Definition truthy (v : option string) : bool :=
  match v with
  | Some s => negb (String.eqb s "")
  | None => false
  end.

(** [s === v] and [s !== v] for a string [s] and a [string | undefined]. *)
Definition strict_eq (s : string) (v : option string) : bool :=
  match v with
  | Some t => String.eqb s t
  | None => false
  end.

Definition strict_neq (s : string) (v : option string) : bool :=
  negb (strict_eq s v).

(** [Array.prototype.findIndex]; [None] stands for [-1]. *)
Fixpoint findIndex {A : Type} (f : A -> bool) (l : list A) : option nat :=
  match l with
  | [] => None
  | a :: t => if f a then Some 0 else option_map S (findIndex f t)
  end.

(** [l.splice(i, 1)]: the array without its element at index [i]. *)
Fixpoint splice1 {A : Type} (i : nat) (l : list A) : list A :=
  match l, i with
  | [], _ => []
  | _ :: t, 0 => t
  | a :: t, S j => a :: splice1 j t
  end.

(** ** Data model *)

Module Player.
(** Modelled from the spec: [lib/Player] is not part of the sources; a
    player is presented by a stable unique identifier, a string. *)
Record t : Type := mk { id : string }.
End Player.

Module Piece.
Inductive t : Type := X | O.

Definition eqb (p q : t) : bool :=
  match p, q with
  | X, X | O, O => true
  | _, _ => false
  end.
End Piece.

(** Modelled from the spec: [TicTacToeGridPosition] is declared in
    [types/CoveyTownSocket], which is not part of the sources; row and column
    range over 0, 1, 2. *)
Inductive TicTacToeGridPosition : Type := G0 | G1 | G2.

Definition pos_num (p : TicTacToeGridPosition) : nat :=
  match p with
  | G0 => 0
  | G1 => 1
  | G2 => 2
  end.

Definition pos_eqb (p q : TicTacToeGridPosition) : bool :=
  Nat.eqb (pos_num p) (pos_num q).

Record TicTacToeMove : Type := mkMove {
  gamePiece : Piece.t;
  row : TicTacToeGridPosition;
  col : TicTacToeGridPosition
}.

Inductive GameStatus : Type := WAITING_TO_START | IN_PROGRESS | OVER.

Definition status_eqb (s t : GameStatus) : bool :=
  match s, t with
  | WAITING_TO_START, WAITING_TO_START => true
  | IN_PROGRESS, IN_PROGRESS => true
  | OVER, OVER => true
  | _, _ => false
  end.

Record TicTacToeGameState : Type := mkState {
  moves : list TicTacToeMove;
  status : GameStatus;
  x : option string;
  o : option string;
  winner : option string
}.

(** An instance of the class: the fields [id], [_state] and [_players] it
    inherits from [Game]. *)
Record TicTacToeGame : Type := mkGame {
  id : string;
  state : TicTacToeGameState;
  _players : list Player.t
}.

Record GameMove : Type := mkGameMove {
  playerID : string;
  gameID : string;
  move : TicTacToeMove
}.

Definition set_moves (st : TicTacToeGameState) (ms : list TicTacToeMove) :=
  mkState ms (status st) (x st) (o st) (winner st).
Definition set_status (st : TicTacToeGameState) (s : GameStatus) :=
  mkState (moves st) s (x st) (o st) (winner st).
Definition set_x (st : TicTacToeGameState) (v : option string) :=
  mkState (moves st) (status st) v (o st) (winner st).
Definition set_o (st : TicTacToeGameState) (v : option string) :=
  mkState (moves st) (status st) (x st) v (winner st).
Definition set_winner (st : TicTacToeGameState) (v : option string) :=
  mkState (moves st) (status st) (x st) (o st) v.

Definition set_state (g : TicTacToeGame) (st : TicTacToeGameState) :=
  mkGame (id g) st (_players g).
Definition set_players (g : TicTacToeGame) (ps : list Player.t) :=
  mkGame (id g) (state g) ps.

(** ** The engine *)

(** The constructor; the identifier is drawn by the constructor of [Game]. *)
Definition new_game (gid : string) : TicTacToeGame :=
  mkGame gid (mkState [] WAITING_TO_START None None None) [].

Definition _checkForWin (st : TicTacToeGameState) (piece : Piece.t)
    (r c : TicTacToeGridPosition) : bool :=
  let checkRow :=
    Nat.eqb
      (List.length
         (filter (fun m => pos_eqb (row m) r && Piece.eqb (gamePiece m) piece)
            (moves st))) 3 in
  let checkCol :=
    Nat.eqb
      (List.length
         (filter (fun m => pos_eqb (col m) c && Piece.eqb (gamePiece m) piece)
            (moves st))) 3 in
  let checkDiagonal1 :=
    pos_eqb r c &&
    Nat.eqb
      (List.length
         (filter (fun m => pos_eqb (row m) (col m)
                           && Piece.eqb (gamePiece m) piece)
            (moves st))) 3 in
  let checkDiagonal2 :=
    Nat.eqb (pos_num r + pos_num c) 2 &&
    Nat.eqb
      (List.length
         (filter (fun m => Nat.eqb (pos_num (row m) + pos_num (col m)) 2
                           && Piece.eqb (gamePiece m) piece)
            (moves st))) 3 in
  checkRow || checkCol || checkDiagonal1 || checkDiagonal2.

Definition applyMove (g : TicTacToeGame) (mv : GameMove)
  : completion TicTacToeGame :=
  match find (fun player => String.eqb (Player.id player) (playerID mv))
             (_players g) with
  | None => Throw (JsError "PLAYER_NOT_IN_GAME_MESSAGE")
  | Some currentPlayer =>
    let st := state g in
    if negb (truthy (x st)) || negb (truthy (o st))
       || negb (status_eqb (status st) IN_PROGRESS)
    then Throw (JsError "GAME_NOT_IN_PROGRESS_MESSAGE")
    else if strict_neq (Player.id currentPlayer) (x st)
            && strict_neq (Player.id currentPlayer) (o st)
    then Throw (JsError "MOVE_NOT_YOUR_TURN_MESSAGE")
    else
      let r := row (move mv) in
      let c := col (move mv) in
      if existsb (fun existingMove => pos_eqb (row existingMove) r
                                      && pos_eqb (col existingMove) c)
                 (moves st)
      then Throw (JsError "BOARD_POSITION_NOT_EMPTY_MESSAGE")
      else
        let piece :=
          if strict_eq (Player.id currentPlayer) (x st)
          then Piece.X else Piece.O in
        let st1 := set_moves st (moves st ++ [mkMove piece r c]) in
        let st2 :=
          if _checkForWin st1 piece r c
          then set_winner (set_status st1 OVER)
                          (Some (Player.id currentPlayer))
          else if Nat.eqb (List.length (moves st1)) 9
          then set_winner (set_status st1 OVER) None
          else st1 in
        Return (set_state g st2)
  end.

Definition _join (g : TicTacToeGame) (player : Player.t)
  : completion TicTacToeGame :=
  if Nat.leb 2 (List.length (_players g))
  then Throw (JsError "GAME_FULL_MESSAGE")
  else if existsb (fun p => String.eqb (Player.id p) (Player.id player))
                  (_players g)
  then Throw (JsError "PLAYER_ALREADY_IN_GAME_MESSAGE")
  else
    let st := state g in
    let st1 :=
      if negb (truthy (x st)) then set_x st (Some (Player.id player))
      else if negb (truthy (o st)) then set_o st (Some (Player.id player))
      else st in
    let st2 :=
      if truthy (x st1) && truthy (o st1) then set_status st1 IN_PROGRESS
      else st1 in
    Return (set_state g st2).

Definition _leave (g : TicTacToeGame) (player : Player.t)
  : completion TicTacToeGame :=
  match findIndex (fun p => String.eqb (Player.id p) (Player.id player))
                  (_players g) with
  | None => Throw (JsError "PLAYER_NOT_IN_GAME_MESSAGE")
  | Some playerIndex =>
    let players := splice1 playerIndex (_players g) in
    let st := state g in
    let st1 :=
      match players with
      | [remainingPlayer] =>
        set_winner (set_status st OVER) (Some (Player.id remainingPlayer))
      | _ => set_status st WAITING_TO_START
      end in
    Return (mkGame (id g) st1 players)
  end.

(** Modelled from the spec: the method [join] of the base class [Game] is not
    part of the sources. A join runs the rule check [_join] and then adds the
    player to the roster, which is ordered by arrival. *)
Definition join (g : TicTacToeGame) (player : Player.t)
  : completion TicTacToeGame :=
  g1 <- _join g player ;;
  Return (set_players g1 (_players g1 ++ [player])).

(** Modelled from the spec: the method [leave] of the base class [Game] is
    not part of the sources. A leave runs [_leave] and then removes the player
    from the roster; [_leave] has already spliced the player out, so on a
    roster of distinct identifiers nothing is left to remove. *)
Definition leave (g : TicTacToeGame) (player : Player.t)
  : completion TicTacToeGame :=
  g1 <- _leave g player ;;
  Return (set_players g1
            (filter (fun p => negb (String.eqb (Player.id p)
                                               (Player.id player)))
                    (_players g1))).

(** Engine operations and the states a fresh game can reach through them. *)
Inductive op : Type :=
| OpJoin (player : Player.t)
| OpLeave (player : Player.t)
| OpMove (mv : GameMove).

Definition step (g : TicTacToeGame) (a : op) : completion TicTacToeGame :=
  match a with
  | OpJoin p => join g p
  | OpLeave p => leave g p
  | OpMove mv => applyMove g mv
  end.

(** A sequence of operations, each of which has to succeed. *)
Fixpoint run (g : TicTacToeGame) (ops : list op) : completion TicTacToeGame :=
  match ops with
  | [] => Return g
  | a :: rest => g' <- step g a ;; run g' rest
  end.

Inductive reachable : TicTacToeGame -> Prop :=
| reach_new gid : reachable (new_game gid)
| reach_step g a g' : reachable g -> step g a = Return g' -> reachable g'.

(** ** The router *)

(** The message constants the router imports from
    [lib/InvalidParametersError], which is not part of the sources: they are
    parameters of the router. *)
Record ErrorMessages : Type := mkMessages {
  PLAYER_ALREADY_IN_GAME_MESSAGE : string;
  GAME_FULL_MESSAGE : string;
  GAME_NOT_IN_PROGRESS_MESSAGE : string;
  INVALID_COMMAND_MESSAGE : string;
  PLAYER_NOT_IN_GAME_MESSAGE : string
}.

Module Command.
(** Modelled from the spec: [InteractableCommand] is declared in
    [types/CoveyTownSocket], which is not part of the sources; a command is
    a join, a leave or a move addressed to a game, or of some other kind. *)
Inductive t : Type :=
| JoinGame
| LeaveGame (gameID : string)
| GameMove (gameID : string) (move : TicTacToeMove)
| Other (type : string).
End Command.

(** Modelled from the spec: the entries of the history are declared outside
    the sources; an entry captures the two participants and the outcome, the
    winner or a tie. *)
Record GameResult : Type := mkResult {
  participants : string * string;
  outcome : option string
}.

(** Modelled from the spec: the base class [GameArea] is not part of the
    sources; the router holds zero or one engine and an append-only history,
    and [_emitAreaChanged] notifies the observers, counted here. *)
Record TicTacToeGameArea : Type := mkArea {
  _game : option TicTacToeGame;
  _history : list GameResult;
  areaChanged : nat
}.

Definition set_game (a : TicTacToeGameArea) (g : TicTacToeGame) :=
  mkArea (Some g) (_history a) (areaChanged a).

Definition _emitAreaChanged (a : TicTacToeGameArea) :=
  mkArea (_game a) (_history a) (S (areaChanged a)).

(** [s.indexOf(t) === -1] *)
Definition indexOf_is_minus1 (s t : string) : bool :=
  match String.index 0 t s with
  | Some _ => false
  | None => true
  end.

(** The [switch] inside the [try] block. *)
Definition dispatch (M : ErrorMessages) (a : TicTacToeGameArea)
    (command : Command.t) (player : Player.t)
  : completion TicTacToeGameArea :=
  match command with
  | Command.JoinGame =>
    match _game a with
    | Some g => g' <- join g player ;; Return (set_game a g')
    | None => Return a
    end
  | Command.LeaveGame _ =>
    match _game a with
    | None => Throw (JsError (PLAYER_NOT_IN_GAME_MESSAGE M))
    | Some g =>
      if indexOf_is_minus1 (id g) (Player.id player)
      then Throw (JsError (PLAYER_NOT_IN_GAME_MESSAGE M))
      else g' <- leave g player ;; Return (set_game a g')
    end
  | Command.GameMove _ mv =>
    match _game a with
    | None => Throw (JsError (GAME_NOT_IN_PROGRESS_MESSAGE M))
    | Some g =>
      if negb (status_eqb (status (state g)) IN_PROGRESS)
      then Throw (JsError (GAME_NOT_IN_PROGRESS_MESSAGE M))
      else g' <- applyMove g (mkGameMove (Player.id player) "GameMove" mv) ;;
           Return (set_game a g')
    end
  | Command.Other _ => Throw (JsError (INVALID_COMMAND_MESSAGE M))
  end.

(** The area after the call, and how the call completed. *)
Definition handleCommand (M : ErrorMessages) (a : TicTacToeGameArea)
    (command : Command.t) (player : Player.t)
  : TicTacToeGameArea * completion unit :=
  match dispatch M a command player with
  | Return a' => (_emitAreaChanged a', Return tt)
  | Throw error =>
    if strict_eq_string error (PLAYER_ALREADY_IN_GAME_MESSAGE M)
       || strict_eq_string error (GAME_FULL_MESSAGE M)
       || strict_eq_string error (GAME_NOT_IN_PROGRESS_MESSAGE M)
       || strict_eq_string error (INVALID_COMMAND_MESSAGE M)
    then (a, Throw (JsError (to_message error)))
    else (a, Throw (JsError "An unexpected error occurred."))
  end.

(** ** What the rules call a win and a full board *)

Definition cell : Type := (TicTacToeGridPosition * TicTacToeGridPosition).

Definition cell_of (m : TicTacToeMove) : cell := (row m, col m).

Definition cell_eqb (c d : cell) : bool :=
  pos_eqb (fst c) (fst d) && pos_eqb (snd c) (snd d).

(** The three rows, the three columns and the two diagonals. *)
Definition winning_lines : list (list cell) :=
  [ [(G0, G0); (G0, G1); (G0, G2)];
    [(G1, G0); (G1, G1); (G1, G2)];
    [(G2, G0); (G2, G1); (G2, G2)];
    [(G0, G0); (G1, G0); (G2, G0)];
    [(G0, G1); (G1, G1); (G2, G1)];
    [(G0, G2); (G1, G2); (G2, G2)];
    [(G0, G0); (G1, G1); (G2, G2)];
    [(G0, G2); (G1, G1); (G2, G0)] ].

Definition all_cells : list cell :=
  [ (G0, G0); (G0, G1); (G0, G2);
    (G1, G0); (G1, G1); (G1, G2);
    (G2, G0); (G2, G1); (G2, G2) ].

(** [piece] is recorded on cell [c]. *)
Definition holds (piece : Piece.t) (ms : list TicTacToeMove) (c : cell)
  : bool :=
  existsb (fun m => Piece.eqb (gamePiece m) piece && cell_eqb (cell_of m) c)
          ms.

(** [piece] holds all three cells of one of the eight lines. *)
Definition holds_line (piece : Piece.t) (ms : list TicTacToeMove) : bool :=
  existsb (fun line => forallb (holds piece ms) line) winning_lines.

Definition occupied (ms : list TicTacToeMove) (c : cell) : bool :=
  existsb (fun m => cell_eqb (cell_of m) c) ms.

Definition board_full (ms : list TicTacToeMove) : bool :=
  forallb (occupied ms) all_cells.

(** The piece [applyMove] plays for a player. *)
Definition piece_of (g : TicTacToeGame) (playerId : string) : Piece.t :=
  if strict_eq playerId (x (state g)) then Piece.X else Piece.O.

(** ** Players and boards used below *)

Definition alice : Player.t := Player.mk "alice".
Definition bob : Player.t := Player.mk "bob".
Definition carol : Player.t := Player.mk "carol".

(** A move command of the player [who] on row [r], column [c]; [applyMove]
    ignores the piece the command carries. *)
Definition play (who : Player.t) (r c : TicTacToeGridPosition) : GameMove :=
  mkGameMove (Player.id who) "g" (mkMove Piece.X r c).

(** Alice has joined. *)
Definition game_a : TicTacToeGame :=
  mkGame "g" (mkState [] WAITING_TO_START (Some "alice") None None) [alice].

(** Alice and Bob have joined, nobody has moved. *)
Definition game_ab : TicTacToeGame :=
  mkGame "g" (mkState [] IN_PROGRESS (Some "alice") (Some "bob") None)
         [alice; bob].

(** Alice and Bob have joined and Alice has left. *)
Definition game_b_alone : TicTacToeGame :=
  mkGame "g" (mkState [] OVER (Some "alice") (Some "bob") (Some "bob")) [bob].

(** Alice, playing X, holds two cells of the top row. *)
Definition game_x_about_to_win : TicTacToeGame :=
  mkGame "g"
    (mkState [mkMove Piece.X G0 G0; mkMove Piece.O G1 G1;
              mkMove Piece.X G0 G1; mkMove Piece.O G1 G0]
             IN_PROGRESS (Some "alice") (Some "bob") None)
    [alice; bob].

(** Alice won with the top row, Bob left and Carol joined. *)
Definition game_revived : TicTacToeGame :=
  mkGame "g"
    (mkState [mkMove Piece.X G0 G0; mkMove Piece.X G0 G1; mkMove Piece.X G0 G2]
             IN_PROGRESS (Some "alice") (Some "bob") (Some "alice"))
    [alice; carol].

(** The lines through a cell: its row, its column and the two diagonals. *)
Definition row_line (r : TicTacToeGridPosition) : list cell :=
  [(r, G0); (r, G1); (r, G2)].

Definition col_line (c : TicTacToeGridPosition) : list cell :=
  [(G0, c); (G1, c); (G2, c)].

Definition diagonal1 : list cell := [(G0, G0); (G1, G1); (G2, G2)].

Definition diagonal2 : list cell := [(G0, G2); (G1, G1); (G2, G0)].

(** The lines [_checkForWin] looks at. *)
Definition through (h : cell -> bool) (r c : TicTacToeGridPosition) : bool :=
  forallb h (row_line r)
  || forallb h (col_line c)
  || pos_eqb r c && forallb h diagonal1
  || Nat.eqb (pos_num r + pos_num c) 2 && forallb h diagonal2.

(** Eight cells are taken and no line is complete; the last cell is the
    bottom right one.
<<
      X O X
      X O O
      O X .
>> *)
Definition game_last_cell : TicTacToeGame :=
  mkGame "g"
    (mkState [mkMove Piece.X G0 G0; mkMove Piece.O G0 G1;
              mkMove Piece.X G0 G2; mkMove Piece.O G1 G1;
              mkMove Piece.X G1 G0; mkMove Piece.O G1 G2;
              mkMove Piece.X G2 G1; mkMove Piece.O G2 G0]
             IN_PROGRESS (Some "alice") (Some "bob") None)
    [alice; bob].

(** The games after the last move of three plays: Alice completes the top
    row, Alice fills the last cell without completing a line, Alice opens. *)
Definition game_x_won : TicTacToeGame :=
  mkGame "g"
    (mkState (moves (state game_x_about_to_win) ++ [mkMove Piece.X G0 G2])
             OVER (Some "alice") (Some "bob") (Some "alice"))
    [alice; bob].

Definition game_tied : TicTacToeGame :=
  mkGame "g"
    (mkState (moves (state game_last_cell) ++ [mkMove Piece.X G2 G2])
             OVER (Some "alice") (Some "bob") None)
    [alice; bob].

Definition game_opened : TicTacToeGame :=
  mkGame "g"
    (mkState [mkMove Piece.X G0 G0]
             IN_PROGRESS (Some "alice") (Some "bob") None)
    [alice; bob].

(** Alice won with the top row and Bob left; [game_revived] is this game
    after Carol joined. *)
Definition game_x_won_bob_left : TicTacToeGame :=
  mkGame "g"
    (mkState [mkMove Piece.X G0 G0; mkMove Piece.X G0 G1; mkMove Piece.X G0 G2]
             OVER (Some "alice") (Some "bob") (Some "alice"))
    [alice].




(** * Properties *)

(** ** The concrete games are reached from a fresh game *)

Lemma reachable_run g ops g' :
  reachable g -> run g ops = Return g' -> reachable g'.
Proof.
  revert g. induction ops as [|a rest IH]; simpl; intros g Hg Hrun.
  - injection Hrun as <-. exact Hg.
  - destruct (step g a) as [g1|v] eqn:Hstep; simpl in Hrun; [|discriminate].
    eapply IH; [|exact Hrun]. eapply reach_step; eassumption.
Qed.

Lemma run_game_a : run (new_game "g") [OpJoin alice] = Return game_a.
Proof. reflexivity. Qed.

Lemma run_game_ab :
  run (new_game "g") [OpJoin alice; OpJoin bob] = Return game_ab.
Proof. reflexivity. Qed.

Lemma run_game_b_alone :
  run (new_game "g") [OpJoin alice; OpJoin bob; OpLeave alice]
  = Return game_b_alone.
Proof. reflexivity. Qed.

Lemma run_game_x_about_to_win :
  run (new_game "g")
      [OpJoin alice; OpJoin bob;
       OpMove (play alice G0 G0); OpMove (play bob G1 G1);
       OpMove (play alice G0 G1); OpMove (play bob G1 G0)]
  = Return game_x_about_to_win.
Proof. reflexivity. Qed.

Lemma run_game_revived :
  run (new_game "g")
      [OpJoin alice; OpJoin bob;
       OpMove (play alice G0 G0); OpMove (play alice G0 G1);
       OpMove (play alice G0 G2);
       OpLeave bob; OpJoin carol]
  = Return game_revived.
Proof. reflexivity. Qed.

Lemma run_game_last_cell :
  run (new_game "g")
      [OpJoin alice; OpJoin bob;
       OpMove (play alice G0 G0); OpMove (play bob G0 G1);
       OpMove (play alice G0 G2); OpMove (play bob G1 G1);
       OpMove (play alice G1 G0); OpMove (play bob G1 G2);
       OpMove (play alice G2 G1); OpMove (play bob G2 G0)]
  = Return game_last_cell.
Proof. reflexivity. Qed.

Lemma reachable_game_ab : reachable game_ab.
Proof. exact (reachable_run _ _ _ (reach_new "g") run_game_ab). Qed.

Lemma reachable_game_b_alone : reachable game_b_alone.
Proof. exact (reachable_run _ _ _ (reach_new "g") run_game_b_alone). Qed.

Lemma reachable_game_revived : reachable game_revived.
Proof. exact (reachable_run _ _ _ (reach_new "g") run_game_revived). Qed.

(** ** The roster while a game is in progress *)

(** C1. The invariant "while status is IN_PROGRESS the roster has exactly two
    players" fails on the code: a player joins a fresh game and leaves it,
    which empties the roster but keeps the X slot; the next joiner fills the O
    slot, and the status becomes IN_PROGRESS with one player on the roster. *)
Theorem in_progress_with_one_player :
  exists g,
    run (new_game "g") [OpJoin alice; OpLeave alice; OpJoin bob] = Return g
    /\ status (state g) = IN_PROGRESS
    /\ _players g = [bob]
    /\ x (state g) = Some "alice"
    /\ o (state g) = Some "bob".
Proof.
  eexists. split; [reflexivity|]. simpl. repeat split.
Qed.

(** ** Turn order *)

(** C3. The engine has no turn check: in a game that has just started, where
    it is X's turn, the player holding O moves first and the move is
    recorded. *)
Theorem out_of_turn_move_is_recorded :
  status (state game_ab) = IN_PROGRESS
  /\ moves (state game_ab) = []
  /\ piece_of game_ab (Player.id bob) = Piece.O
  /\ exists g,
       applyMove game_ab (play bob G0 G0) = Return g
       /\ moves (state g) = [mkMove Piece.O G0 G0]
       /\ status (state g) = IN_PROGRESS.
Proof.
  repeat split. eexists. split; [reflexivity|]. split; reflexivity.
Qed.

(** ** Failures of [join] *)

Lemma existsb_id_In (ps : list Player.t) (i : string) :
  In i (map Player.id ps) ->
  existsb (fun p => String.eqb (Player.id p) i) ps = true.
Proof.
  intros Hin. apply in_map_iff in Hin as [q [Hq Hin]].
  apply existsb_exists. exists q. split; [exact Hin|].
  rewrite Hq. apply String.eqb_refl.
Qed.

(** C4, as stated, fails: with both Alice and Bob on the roster, a second join
    by Alice fails with the full-game error, not with the already-in-game
    error. *)
Lemma duplicate_join_on_full_roster :
  ~ (forall g p,
        reachable g ->
        In (Player.id p) (map Player.id (_players g)) ->
        join g p = Throw (JsError "PLAYER_ALREADY_IN_GAME_MESSAGE")).
Proof.
  intros H. specialize (H game_ab alice reachable_game_ab).
  simpl in H. discriminate H. left; reflexivity.
Qed.

(** C4, amended. In every game state, a join on a roster of two (or more)
    members fails with the full-game error, whoever joins: a third distinct
    player as well as a player already on the roster. A join by a player
    whose identifier is on a roster of fewer than two members fails with the
    already-in-game error, whatever the status. *)
Theorem join_failure_kinds (g : TicTacToeGame) (p : Player.t) :
  (2 <= List.length (_players g) ->
   join g p = Throw (JsError "GAME_FULL_MESSAGE"))
  /\ (List.length (_players g) < 2 ->
      In (Player.id p) (map Player.id (_players g)) ->
      join g p = Throw (JsError "PLAYER_ALREADY_IN_GAME_MESSAGE")).
Proof.
  unfold join, _join. split.
  - intros Hfull. apply Nat.leb_le in Hfull. rewrite Hfull. reflexivity.
  - intros Hroom Hin. apply Nat.leb_gt in Hroom. rewrite Hroom.
    rewrite (existsb_id_In _ _ Hin). reflexivity.
Qed.

Lemma join_failure_kinds_witness :
  join game_ab carol = Throw (JsError "GAME_FULL_MESSAGE")
  /\ join game_ab alice = Throw (JsError "GAME_FULL_MESSAGE")
  /\ join game_a alice = Throw (JsError "PLAYER_ALREADY_IN_GAME_MESSAGE").
Proof.
  split; [|split].
  - apply (proj1 (join_failure_kinds game_ab carol)). simpl. lia.
  - apply (proj1 (join_failure_kinds game_ab alice)). simpl. lia.
  - apply (proj2 (join_failure_kinds game_a alice)).
    + simpl. lia.
    + simpl. left. reflexivity.
Defined.

(** ** Slots are filled in the order of the joins *)




(** The slot tests are truthiness tests, so a joiner whose identifier is the
    empty string does not keep the slot: the next joiner takes the X slot
    over and the game does not start. *)
Lemma empty_identifier_keeps_no_slot :
  exists g,
    run (new_game "g") [OpJoin (Player.mk ""); OpJoin bob] = Return g
    /\ x (state g) = Some "bob"
    /\ o (state g) = None
    /\ status (state g) = WAITING_TO_START.
Proof. eexists. split; [reflexivity|]. repeat split. Qed.



(** ** Leaving a game *)

Section Roster.
Variable i : string.

Local Abbreviation is_i := (fun p : Player.t => String.eqb (Player.id p) i).
Local Abbreviation not_i :=
  (fun p : Player.t => negb (String.eqb (Player.id p) i)).

Lemma findIndex_In (ps : list Player.t) :
  In i (map Player.id ps) -> exists n, findIndex is_i ps = Some n.
Proof.
  induction ps as [|a t IH]; simpl; [intros []|].
  intros [Ha|Ht].
  - exists 0. rewrite Ha, String.eqb_refl. reflexivity.
  - destruct (String.eqb (Player.id a) i); [exists 0; reflexivity|].
    destruct (IH Ht) as [n Hn]. exists (S n). rewrite Hn. reflexivity.
Qed.

Lemma filter_not_i_absent (ps : list Player.t) :
  ~ In i (map Player.id ps) -> filter not_i ps = ps.
Proof.
  induction ps as [|a t IH]; simpl; [reflexivity|].
  intros Hnot.
  destruct (String.eqb_spec (Player.id a) i) as [Heq|Hneq]; simpl.
  - exfalso. apply Hnot. left. exact Heq.
  - rewrite IH; [reflexivity|]. intros Hin. apply Hnot. right. exact Hin.
Qed.

(** On a roster of distinct identifiers, [splice] at the index found removes
    every player of that identifier. *)
Lemma splice1_findIndex (ps : list Player.t) (n : nat) :
  NoDup (map Player.id ps) ->
  findIndex is_i ps = Some n ->
  splice1 n ps = filter not_i ps.
Proof.
  revert n. induction ps as [|a t IH]; simpl; intros n Hnd Hfind;
    [discriminate|].
  inversion Hnd as [|? ? Hnotin Hnd']; subst.
  destruct (String.eqb_spec (Player.id a) i) as [Heq|Hneq]; simpl.
  - injection Hfind as <-. symmetry. apply filter_not_i_absent.
    rewrite <- Heq. exact Hnotin.
  - destruct (findIndex is_i t) as [m|] eqn:Hm; [|discriminate].
    injection Hfind as <-. simpl. rewrite (IH m Hnd' eq_refl). reflexivity.
Qed.

Lemma filter_not_i_twice (ps : list Player.t) :
  filter not_i (filter not_i ps) = filter not_i ps.
Proof.
  induction ps as [|a t IH]; simpl; [reflexivity|].
  destruct (negb (String.eqb (Player.id a) i)) eqn:Ha; simpl;
    [rewrite Ha, IH|]; auto.
Qed.

Lemma NoDup_map_splice1 (ps : list Player.t) (n : nat) :
  NoDup (map Player.id ps) -> NoDup (map Player.id (splice1 n ps)).
Proof.
  revert n. induction ps as [|a t IH]; intros n Hnd; [destruct n; exact Hnd|].
  inversion Hnd as [|? ? Hnotin Hnd']; subst.
  destruct n as [|n]; simpl; [exact Hnd'|].
  constructor; [|apply IH; exact Hnd'].
  intros Hin. apply Hnotin. clear -Hin.
  revert n Hin. induction t as [|b t IHt]; intros n Hin;
    [destruct n; exact Hin|].
  destruct n as [|n]; simpl in Hin |- *; [right; exact Hin|].
  destruct Hin as [Hb|Hin]; [left; exact Hb|right; exact (IHt n Hin)].
Qed.
End Roster.

(** C7, as stated, fails: Bob is alone in a game Alice forfeited to him; when
    he leaves, nobody remains and the status is WAITING_TO_START, but the
    winner recorded at the forfeit is still set. *)
Lemma leave_of_last_player_keeps_winner :
  ~ (forall g p g',
        reachable g ->
        In (Player.id p) (map Player.id (_players g)) ->
        leave g p = Return g' ->
        _players g' = [] ->
        status (state g') = WAITING_TO_START /\ winner (state g') = None).
Proof.
  intros H.
  destruct (H game_b_alone bob (set_players
                                  (mkGame "g" (set_status (state game_b_alone)
                                                          WAITING_TO_START) [])
                                  [])
              reachable_game_b_alone)
    as [_ Hw].
  - simpl. left. reflexivity.
  - reflexivity.
  - reflexivity.
  - simpl in Hw. discriminate Hw.
Qed.

(** C7, amended. A leave by a member of a roster of distinct identifiers (as
    the roster of every game reached from a fresh game is) succeeds and
    removes the player. If exactly one player remains, the status
    becomes OVER and the winner is the remaining player, whatever the status
    was. If nobody remains, the status becomes WAITING_TO_START and the winner
    field is as it was before the leave: absent if no winner had been set. *)
Theorem leave_outcome (g : TicTacToeGame) (p : Player.t) :
  NoDup (map Player.id (_players g)) ->
  In (Player.id p) (map Player.id (_players g)) ->
  exists g',
    leave g p = Return g'
    /\ _players g'
       = filter (fun q => negb (String.eqb (Player.id q) (Player.id p)))
                (_players g)
    /\ (forall q, _players g' = [q] ->
                  status (state g') = OVER
                  /\ winner (state g') = Some (Player.id q))
    /\ (_players g' = [] ->
        status (state g') = WAITING_TO_START
        /\ winner (state g') = winner (state g)).
Proof.
  intros Hnd Hin.
  destruct (findIndex_In _ _ Hin) as [n Hn].
  pose proof (splice1_findIndex _ _ _ Hnd Hn) as Hsplice.
  unfold leave, _leave. rewrite Hn. simpl.
  eexists. split; [reflexivity|]. simpl.
  rewrite Hsplice, filter_not_i_twice.
  split; [reflexivity|]. split.
  - intros q Hq. rewrite Hq. split; reflexivity.
  - intros Hnil. rewrite Hnil. split; reflexivity.
Qed.

Lemma leave_outcome_witness :
  exists g',
    leave game_ab alice = Return g'
    /\ _players g'
       = filter (fun q => negb (String.eqb (Player.id q) (Player.id alice)))
                (_players game_ab)
    /\ (forall q, _players g' = [q] ->
                  status (state g') = OVER
                  /\ winner (state g') = Some (Player.id q))
    /\ (_players g' = [] ->
        status (state g') = WAITING_TO_START
        /\ winner (state g') = winner (state game_ab)).
Proof.
  apply (leave_outcome game_ab alice).
  - simpl. constructor.
    + simpl. intros [H|[]]. discriminate H.
    + constructor; [intros []|constructor].
  - simpl. left. reflexivity.
Defined.

(** ** The router *)

Section Router.
Variable M : ErrorMessages.

(** The [catch] block compares the caught [Error] object with strings, so
    none of the comparisons holds. *)
Lemma handleCommand_Throw (a : TicTacToeGameArea) (c : Command.t)
    (p : Player.t) (message : string) :
  dispatch M a c p = Throw (JsError message) ->
  handleCommand M a c p
  = (a, Throw (JsError "An unexpected error occurred.")).
Proof. unfold handleCommand. intros ->. reflexivity. Qed.

Lemma handleCommand_Return (a a' : TicTacToeGameArea) (c : Command.t)
    (p : Player.t) :
  dispatch M a c p = Return a' ->
  handleCommand M a c p = (_emitAreaChanged a', Return tt).
Proof. unfold handleCommand. intros ->. reflexivity. Qed.

(** Every value the engine throws is an [Error] object. *)
Lemma applyMove_throws_Error (g : TicTacToeGame) (mv : GameMove)
    (v : JsValue) :
  applyMove g mv = Throw v -> exists message, v = JsError message.
Proof.
  unfold applyMove. intros H.
  repeat match type of H with
         | match ?b with _ => _ end = _ => destruct b
         | (if ?b then _ else _) = _ => destruct b
         end;
    try discriminate H; injection H as <-; eexists; reflexivity.
Qed.

Lemma join_throws_Error (g : TicTacToeGame) (p : Player.t) (v : JsValue) :
  join g p = Throw v -> exists message, v = JsError message.
Proof.
  unfold join, _join. intros H.
  repeat match type of H with
         | context [if ?b then Throw _ else _] => destruct b
         end;
    try discriminate H; injection H as <-; eexists; reflexivity.
Qed.

Lemma leave_throws_Error (g : TicTacToeGame) (p : Player.t) (v : JsValue) :
  leave g p = Throw v -> exists message, v = JsError message.
Proof.
  unfold leave, _leave. intros H.
  destruct (findIndex _ (_players g)); [discriminate H|].
  injection H as <-. eexists. reflexivity.
Qed.

Lemma dispatch_throws_Error (a : TicTacToeGameArea) (c : Command.t)
    (p : Player.t) (v : JsValue) :
  dispatch M a c p = Throw v -> exists message, v = JsError message.
Proof.
  unfold dispatch. intros H.
  destruct c as [|gid|gid mv|ty]; destruct (_game a) as [g|];
    try (injection H as <-; eexists; reflexivity); try discriminate H.
  - destruct (join g p) as [g'|w] eqn:Hj; [discriminate H|].
    injection H as <-. eapply join_throws_Error; eassumption.
  - destruct (indexOf_is_minus1 (id g) (Player.id p)).
    + injection H as <-. eexists. reflexivity.
    + destruct (leave g p) as [g'|w] eqn:Hl; [discriminate H|].
      injection H as <-. eapply leave_throws_Error; eassumption.
  - destruct (negb (status_eqb (status (state g)) IN_PROGRESS)).
    + injection H as <-. eexists. reflexivity.
    + destruct (applyMove g _) as [g'|w] eqn:Hm; [discriminate H|].
      injection H as <-. eapply applyMove_throws_Error; eassumption.
Qed.

(** No command changes the history. *)
Lemma dispatch_history (a a' : TicTacToeGameArea) (c : Command.t)
    (p : Player.t) :
  dispatch M a c p = Return a' -> _history a' = _history a.
Proof.
  unfold dispatch. intros H.
  destruct c as [|gid|gid mv|ty]; destruct (_game a) as [g|];
    try discriminate H; try (injection H as <-; reflexivity).
  - destruct (join g p); [|discriminate H]. injection H as <-. reflexivity.
  - destruct (indexOf_is_minus1 _ _); [discriminate H|].
    destruct (leave g p); [|discriminate H]. injection H as <-. reflexivity.
  - destruct (negb _); [discriminate H|].
    destruct (applyMove g _); [|discriminate H].
    injection H as <-. reflexivity.
Qed.

(** C2. With no active engine, a JoinGame command creates none and joins
    nobody: the call succeeds, the area still has no game and the observers
    are notified. *)
Theorem JoinGame_without_engine_creates_none
    (history : list GameResult) (n : nat) (p : Player.t) :
  handleCommand M (mkArea None history n) Command.JoinGame p
  = (mkArea None history (S n), Return tt).
Proof. reflexivity. Qed.

(** C8. Whatever fails inside the router, the caller gets the generic
    error: every call either succeeds or throws "An unexpected error
    occurred."; so a third join on a full game, which the engine refuses
    with its full-game error, surfaces as the generic failure. *)
Theorem handleCommand_failure_is_generic :
  (forall a c p,
      snd (handleCommand M a c p) = Return tt
      \/ handleCommand M a c p
         = (a, Throw (JsError "An unexpected error occurred.")))
  /\ join game_ab carol = Throw (JsError "GAME_FULL_MESSAGE")
  /\ handleCommand M (mkArea (Some game_ab) [] 0) Command.JoinGame carol
     = (mkArea (Some game_ab) [] 0,
        Throw (JsError "An unexpected error occurred.")).
Proof.
  split; [|split; reflexivity].
  intros a c p. destruct (dispatch M a c p) as [a'|v] eqn:Hd.
  - left. rewrite (handleCommand_Return _ _ _ _ Hd). reflexivity.
  - right. destruct (dispatch_throws_Error _ _ _ _ Hd) as [message ->].
    eapply handleCommand_Throw. exact Hd.
Qed.

(** C9. The router never writes the history: after any command the history
    is as before. So when Alice completes the top row, the command succeeds,
    the status becomes OVER with Alice the winner, the observers are
    notified once, and no entry is recorded. *)
Theorem handleCommand_never_records_history :
  (forall a c p, _history (fst (handleCommand M a c p)) = _history a)
  /\ exists g,
       handleCommand M (mkArea (Some game_x_about_to_win) [] 0)
                     (Command.GameMove "g" (mkMove Piece.X G0 G2)) alice
       = (mkArea (Some g) [] 1, Return tt)
       /\ status (state game_x_about_to_win) = IN_PROGRESS
       /\ status (state g) = OVER
       /\ winner (state g) = Some "alice".
Proof.
  split.
  - intros a c p. unfold handleCommand.
    destruct (dispatch M a c p) as [a'|v] eqn:Hd.
    + simpl. eapply dispatch_history. exact Hd.
    + destruct (_ || _); reflexivity.
  - eexists. split; [reflexivity|]. repeat split.
Qed.

(** C10. A command of any other kind fails and changes nothing: the area,
    its history and the count of notifications are as before. But the
    failure the caller gets is the generic one, not the invalid-command
    error thrown in the [switch]. *)
Theorem unknown_command_fails_with_generic_error
    (a : TicTacToeGameArea) (type : string) (p : Player.t) :
  dispatch M a (Command.Other type) p
  = Throw (JsError (INVALID_COMMAND_MESSAGE M))
  /\ handleCommand M a (Command.Other type) p
     = (a, Throw (JsError "An unexpected error occurred.")).
Proof. split; reflexivity. Qed.
End Router.

(** ** Outcome of a move *)

Lemma pos_eqb_eq (p q : TicTacToeGridPosition) : pos_eqb p q = true <-> p = q.
Proof. destruct p, q; cbv; split; congruence. Qed.

Lemma cell_eqb_eq (c d : cell) : cell_eqb c d = true <-> c = d.
Proof.
  destruct c as [a b], d as [a' b']. unfold cell_eqb. simpl.
  rewrite andb_true_iff, !pos_eqb_eq. split.
  - intros [-> ->]. reflexivity.
  - intros [= -> ->]. split; reflexivity.
Qed.

Lemma piece_eqb_eq (p q : Piece.t) : Piece.eqb p q = true <-> p = q.
Proof. destruct p, q; simpl; split; congruence. Qed.

Lemma piece_eqb_refl (p : Piece.t) : Piece.eqb p p = true.
Proof. destruct p; reflexivity. Qed.

Lemma holds_iff (piece : Piece.t) (ms : list TicTacToeMove) (c : cell) :
  holds piece ms c = true
  <-> exists m, In m ms /\ gamePiece m = piece /\ cell_of m = c.
Proof.
  unfold holds. rewrite existsb_exists. split.
  - intros [m [Hin Hb]]. apply andb_true_iff in Hb as [Hp Hc].
    exists m. rewrite piece_eqb_eq in Hp. rewrite cell_eqb_eq in Hc. auto.
  - intros [m [Hin [Hp Hc]]]. exists m. split; [exact Hin|].
    apply andb_true_iff. rewrite piece_eqb_eq, cell_eqb_eq. auto.
Qed.

Lemma occupied_iff (ms : list TicTacToeMove) (c : cell) :
  occupied ms c = true <-> In c (map cell_of ms).
Proof.
  unfold occupied. rewrite existsb_exists, in_map_iff.
  split; intros [m [H1 H2]]; exists m.
  - rewrite cell_eqb_eq in H2. auto.
  - rewrite cell_eqb_eq. auto.
Qed.

Lemma NoDup_map_filter {A B : Type} (f : A -> B) (keep : A -> bool)
    (l : list A) :
  NoDup (map f l) -> NoDup (map f (filter keep l)).
Proof.
  induction l as [|a t IH]; simpl; intros Hnd; [constructor|].
  inversion Hnd as [|? ? Hnotin Hnd']; subst.
  destruct (keep a); simpl; [|auto].
  constructor; [|auto].
  intros Hin. apply Hnotin.
  apply in_map_iff in Hin as [b [Hb Hin]].
  apply filter_In in Hin as [Hin _].
  apply in_map_iff. exists b. auto.
Qed.

(** A duplicate-free list inside a duplicate-free list [L] has the length of
    [L] exactly when it covers [L]. *)
Lemma covers_iff_length {A : Type} (l L : list A) :
  NoDup l -> NoDup L -> incl l L ->
  (List.length l = List.length L <-> incl L l).
Proof.
  intros Hl HL Hincl. split.
  - intros Hlen. apply NoDup_length_incl; [exact Hl| |exact Hincl].
    rewrite Hlen. apply Nat.le_refl.
  - intros Hcov. apply Nat.le_antisymm; apply NoDup_incl_length; assumption.
Qed.

(** Counting the moves of [piece] on the cells selected by [sel], as
    [_checkForWin] does, against holding every cell of the line [line] that
    [sel] selects. *)
Section Counting.
Variable piece : Piece.t.
Variable sel : cell -> bool.
Variable line : list cell.
Hypothesis line_NoDup : NoDup line.
Hypothesis line_sel : forall c, In c line <-> sel c = true.

Local Abbreviation picked :=
  (fun m : TicTacToeMove =>
     sel (cell_of m) && Piece.eqb (gamePiece m) piece).

Lemma count_is_line (ms : list TicTacToeMove) :
  NoDup (map cell_of ms) ->
  Nat.eqb (List.length (filter picked ms)) (List.length line)
  = forallb (holds piece ms) line.
Proof.
  intros Hnd. apply eq_true_iff_eq.
  rewrite Nat.eqb_eq, forallb_forall.
  rewrite <- (length_map cell_of (filter picked ms)).
  rewrite covers_iff_length;
    [ | apply NoDup_map_filter; exact Hnd | exact line_NoDup | ].
  - unfold incl. split; intros H c Hc.
    + apply holds_iff. specialize (H c Hc).
      apply in_map_iff in H as [m [Hm Hin]].
      apply filter_In in Hin as [Hin Hp].
      apply andb_true_iff in Hp as [_ Hp]. apply piece_eqb_eq in Hp.
      exists m. auto.
    + specialize (H c Hc). apply holds_iff in H.
      destruct H as [m [Hin [Hp Hm]]].
      apply in_map_iff. exists m. split; [exact Hm|].
      apply filter_In. split; [exact Hin|].
      apply andb_true_iff. split.
      * rewrite Hm. apply line_sel. exact Hc.
      * apply piece_eqb_eq. exact Hp.
  - intros c Hc. apply in_map_iff in Hc as [m [Hm Hin]].
    apply filter_In in Hin as [_ Hp].
    apply andb_true_iff in Hp as [Hs _].
    apply line_sel. rewrite <- Hm. exact Hs.
Qed.
End Counting.

Lemma row_line_NoDup r : NoDup (row_line r).
Proof.
  destruct r; repeat constructor; simpl; intuition discriminate.
Qed.

Lemma col_line_NoDup c : NoDup (col_line c).
Proof.
  destruct c; repeat constructor; simpl; intuition discriminate.
Qed.

Lemma diagonal1_NoDup : NoDup diagonal1.
Proof. repeat constructor; simpl; intuition discriminate. Qed.

Lemma diagonal2_NoDup : NoDup diagonal2.
Proof. repeat constructor; simpl; intuition discriminate. Qed.

Lemma all_cells_NoDup : NoDup all_cells.
Proof. repeat constructor; simpl; intuition discriminate. Qed.

Lemma all_cells_In (c : cell) : In c all_cells.
Proof. destruct c as [[] []]; simpl; intuition. Qed.

Ltac line_membership :=
  simpl; split;
  [ intros H;
    repeat (destruct H as [H|H]; [try discriminate H; try reflexivity|]);
    try contradiction
  | intros H; try discriminate H; auto 10 ].

Lemma row_line_sel r (c : cell) :
  In c (row_line r) <-> pos_eqb (fst c) r = true.
Proof.
  rewrite pos_eqb_eq. destruct c as [[] []], r; line_membership.
Qed.

Lemma col_line_sel k (c : cell) :
  In c (col_line k) <-> pos_eqb (snd c) k = true.
Proof.
  rewrite pos_eqb_eq. destruct c as [[] []], k; line_membership.
Qed.

Lemma diagonal1_sel (c : cell) :
  In c diagonal1 <-> pos_eqb (fst c) (snd c) = true.
Proof.
  rewrite pos_eqb_eq. destruct c as [[] []]; line_membership.
Qed.

Lemma diagonal2_sel (c : cell) :
  In c diagonal2 <-> Nat.eqb (pos_num (fst c) + pos_num (snd c)) 2 = true.
Proof.
  destruct c as [[] []]; line_membership.
Qed.

Lemma checkForWin_through (st : TicTacToeGameState) (piece : Piece.t)
    (r c : TicTacToeGridPosition) :
  NoDup (map cell_of (moves st)) ->
  _checkForWin st piece r c = through (holds piece (moves st)) r c.
Proof.
  intros Hnd. unfold through.
  rewrite <- (count_is_line piece (fun d => pos_eqb (fst d) r) (row_line r)
                (row_line_NoDup r) (row_line_sel r) _ Hnd).
  rewrite <- (count_is_line piece (fun d => pos_eqb (snd d) c) (col_line c)
                (col_line_NoDup c) (col_line_sel c) _ Hnd).
  rewrite <- (count_is_line piece (fun d => pos_eqb (fst d) (snd d)) diagonal1
                diagonal1_NoDup diagonal1_sel _ Hnd).
  rewrite <- (count_is_line piece
                (fun d => Nat.eqb (pos_num (fst d) + pos_num (snd d)) 2)
                diagonal2 diagonal2_NoDup diagonal2_sel _ Hnd).
  reflexivity.
Qed.

Lemma forallb_pointwise {A : Type} (f f' : A -> bool) (l : list A) :
  (forall a, f a = f' a) -> forallb f l = forallb f' l.
Proof.
  intros Hext. induction l as [|a t IH]; simpl; [reflexivity|].
  rewrite Hext, IH. reflexivity.
Qed.

Lemma lines_pointwise (h h' : cell -> bool) (lines : list (list cell)) :
  (forall d, h d = h' d) ->
  existsb (forallb h) lines = existsb (forallb h') lines.
Proof.
  intros Hext. induction lines as [|l t IH]; simpl; [reflexivity|].
  rewrite (forallb_pointwise h h' l Hext), IH. reflexivity.
Qed.

Lemma through_pointwise (h h' : cell -> bool) r c :
  (forall d, h d = h' d) -> through h r c = through h' r c.
Proof.
  intros Hext. unfold through.
  rewrite !(forallb_pointwise h h' _ Hext). reflexivity.
Qed.

Ltac each_board h :=
  destruct (h (G0, G0)), (h (G0, G1)), (h (G0, G2)),
           (h (G1, G0)), (h (G1, G1)), (h (G1, G2)),
           (h (G2, G0)), (h (G2, G1)), (h (G2, G2)).

(** Each line [_checkForWin] looks at is one of the eight lines. *)
Lemma through_is_winning_line (h : cell -> bool) r c :
  through h r c = true -> existsb (forallb h) winning_lines = true.
Proof.
  destruct r, c; cbv; each_board h; congruence.
Qed.

(** On a board without a complete line, a line completed by taking the cell
    [(r, c)] goes through that cell. *)
Lemma completed_line_is_through (h : cell -> bool) r c :
  existsb (forallb h) winning_lines = false ->
  existsb (forallb (fun d => h d || cell_eqb (r, c) d)) winning_lines
  = through (fun d => h d || cell_eqb (r, c) d) r c.
Proof.
  destruct r, c; cbv; each_board h; congruence.
Qed.

Lemma holds_snoc (piece : Piece.t) (ms : list TicTacToeMove) r c (d : cell) :
  holds piece (ms ++ [mkMove piece r c]) d
  = holds piece ms d || cell_eqb (r, c) d.
Proof.
  unfold holds. rewrite existsb_app. simpl.
  rewrite piece_eqb_refl, orb_false_r. reflexivity.
Qed.

(** No false positive: a win reported after a move is a complete line. *)
Lemma checkForWin_sound (st : TicTacToeGameState) (piece : Piece.t) r c :
  NoDup (map cell_of (moves st)) ->
  _checkForWin st piece r c = true ->
  holds_line piece (moves st) = true.
Proof.
  intros Hnd Hwin. rewrite (checkForWin_through _ _ _ _ Hnd) in Hwin.
  exact (through_is_winning_line _ _ _ Hwin).
Qed.

(** Every line the mover completes with this move is reported. *)
Lemma checkForWin_complete (st : TicTacToeGameState) (piece : Piece.t) r c
    (ms : list TicTacToeMove) :
  moves st = ms ++ [mkMove piece r c] ->
  NoDup (map cell_of (moves st)) ->
  holds_line piece ms = false ->
  _checkForWin st piece r c = holds_line piece (moves st).
Proof.
  intros Hms Hnd Hbefore. rewrite (checkForWin_through _ _ _ _ Hnd).
  rewrite Hms.
  rewrite (through_pointwise _ _ r c (holds_snoc piece ms r c)).
  rewrite <- (completed_line_is_through (holds piece ms) r c Hbefore).
  symmetry.
  exact (lines_pointwise _ _ winning_lines (holds_snoc piece ms r c)).
Qed.

Lemma nine_moves_is_full (ms : list TicTacToeMove) :
  NoDup (map cell_of ms) ->
  Nat.eqb (List.length ms) 9 = board_full ms.
Proof.
  intros Hnd. apply eq_true_iff_eq.
  unfold board_full. rewrite Nat.eqb_eq, forallb_forall.
  rewrite <- (length_map cell_of ms).
  change 9 with (List.length all_cells).
  rewrite covers_iff_length;
    [ | exact Hnd | exact all_cells_NoDup | intros c _; apply all_cells_In ].
  unfold incl. split; intros H c Hc.
  - apply occupied_iff. exact (H c Hc).
  - apply occupied_iff. exact (H c Hc).
Qed.

(** What a successful [applyMove] checked and what it returns. *)
Lemma applyMove_Return (g : TicTacToeGame) (mv : GameMove)
    (g' : TicTacToeGame) :
  applyMove g mv = Return g' ->
  let piece := piece_of g (playerID mv) in
  let r := row (move mv) in
  let c := col (move mv) in
  let st1 := set_moves (state g) (moves (state g) ++ [mkMove piece r c]) in
  status (state g) = IN_PROGRESS
  /\ occupied (moves (state g)) (r, c) = false
  /\ g' = set_state g
            (if _checkForWin st1 piece r c
             then set_winner (set_status st1 OVER) (Some (playerID mv))
             else if Nat.eqb (List.length (moves st1)) 9
                  then set_winner (set_status st1 OVER) None
                  else st1).
Proof.
  unfold applyMove, piece_of. intros H.
  destruct (find _ (_players g)) as [currentPlayer|] eqn:Hfind;
    [|discriminate H].
  apply find_some in Hfind as [_ Hid]. apply String.eqb_eq in Hid.
  rewrite Hid in H.
  destruct (negb (truthy (x (state g))) || negb (truthy (o (state g)))
            || negb (status_eqb (status (state g)) IN_PROGRESS)) eqn:Hprog;
    [discriminate H|].
  destruct (strict_neq (playerID mv) (x (state g))
            && strict_neq (playerID mv) (o (state g))); [discriminate H|].
  destruct (existsb _ (moves (state g))) eqn:Hocc; [discriminate H|].
  injection H as <-.
  apply orb_false_iff in Hprog as [_ Hprog].
  apply negb_false_iff in Hprog.
  split; [|split].
  - destruct (status (state g)); simpl in Hprog; congruence.
  - exact Hocc.
  - reflexivity.
Qed.

Lemma join_moves (g : TicTacToeGame) (p : Player.t) (g' : TicTacToeGame) :
  join g p = Return g' -> moves (state g') = moves (state g).
Proof.
  unfold join, _join. intros H.
  destruct (Nat.leb 2 (List.length (_players g))); [discriminate H|].
  destruct (existsb _ (_players g)); [discriminate H|].
  injection H as <-. simpl.
  repeat match goal with
         | |- context [if ?b then _ else _] => destruct b
         end; reflexivity.
Qed.

Lemma leave_moves (g : TicTacToeGame) (p : Player.t) (g' : TicTacToeGame) :
  leave g p = Return g' -> moves (state g') = moves (state g).
Proof.
  unfold leave, _leave. intros H.
  destruct (findIndex _ (_players g)) as [n|]; [|discriminate H].
  injection H as <-. simpl.
  destruct (splice1 n (_players g)) as [|q [|q' t]]; reflexivity.
Qed.

Lemma applyMove_moves (g : TicTacToeGame) (mv : GameMove)
    (g' : TicTacToeGame) :
  applyMove g mv = Return g' ->
  moves (state g')
  = moves (state g)
    ++ [mkMove (piece_of g (playerID mv)) (row (move mv)) (col (move mv))].
Proof.
  intros H. apply applyMove_Return in H as [_ [_ ->]]. simpl.
  repeat match goal with
         | |- context [if ?b then _ else _] => destruct b
         end; reflexivity.
Qed.

Lemma NoDup_snoc {A : Type} (l : list A) (a : A) :
  NoDup l -> ~ In a l -> NoDup (l ++ [a]).
Proof.
  intros Hl Ha. apply NoDup_app; [exact Hl|repeat constructor; intros []|].
  intros b Hb [<-|[]]. exact (Ha Hb).
Qed.

(** No cell is recorded twice in a game reached from a fresh game. *)
Lemma reachable_cells_distinct (g : TicTacToeGame) :
  reachable g -> NoDup (map cell_of (moves (state g))).
Proof.
  induction 1 as [gid|g a g' Hreach IH Hstep]; [constructor|].
  destruct a as [p|p|mv]; simpl in Hstep.
  - rewrite (join_moves _ _ _ Hstep). exact IH.
  - rewrite (leave_moves _ _ _ Hstep). exact IH.
  - rewrite (applyMove_moves _ _ _ Hstep).
    apply applyMove_Return in Hstep as [_ [Hfree _]].
    rewrite map_app. simpl. apply NoDup_snoc; [exact IH|].
    intros Hin. apply occupied_iff in Hin.
    unfold cell_of in Hin. simpl in Hin. congruence.
Qed.

(** C5, as stated, fails: Alice completed the top row and won, Bob left and
    Carol joined, which put the status back to IN_PROGRESS. Alice then takes
    the centre: the move succeeds and she holds the three cells of the top
    row, but the status is still IN_PROGRESS. *)
Lemma held_line_not_through_last_move :
  ~ (forall g mv g',
        reachable g ->
        applyMove g mv = Return g' ->
        holds_line (piece_of g (playerID mv)) (moves (state g')) = true ->
        status (state g') = OVER
        /\ winner (state g') = Some (playerID mv)).
Proof.
  intros H.
  destruct (H game_revived (play alice G1 G1)
              (set_state game_revived
                 (set_moves (state game_revived)
                    (moves (state game_revived) ++ [mkMove Piece.X G1 G1])))
              reachable_game_revived eq_refl eq_refl)
    as [Hstatus _].
  simpl in Hstatus. discriminate Hstatus.
Qed.

(** C5, amended. Every successful [applyMove] on a game reached from a fresh
    game appends the move with the mover's piece and then settles the outcome.
    If the mover did not hold a complete line before the move and holds one of
    the eight lines after it, the status becomes OVER and the winner is the
    mover. If the mover holds no complete line after the move, the move is not
    classified as a win: when all nine cells are filled the status becomes
    OVER with no winner, otherwise the status stays IN_PROGRESS and the winner
    field is unchanged. *)
Theorem applyMove_outcome (g : TicTacToeGame) (mv : GameMove)
    (g' : TicTacToeGame) :
  reachable g ->
  applyMove g mv = Return g' ->
  let piece := piece_of g (playerID mv) in
  moves (state g')
  = moves (state g) ++ [mkMove piece (row (move mv)) (col (move mv))]
  /\ (holds_line piece (moves (state g)) = false ->
      holds_line piece (moves (state g')) = true ->
      status (state g') = OVER /\ winner (state g') = Some (playerID mv))
  /\ (holds_line piece (moves (state g')) = false ->
      board_full (moves (state g')) = true ->
      status (state g') = OVER /\ winner (state g') = None)
  /\ (holds_line piece (moves (state g')) = false ->
      board_full (moves (state g')) = false ->
      status (state g') = IN_PROGRESS
      /\ winner (state g') = winner (state g)).
Proof.
  intros Hreach Hmove piece.
  assert (Hreach' : reachable g')
    by (eapply (reach_step g (OpMove mv)); eassumption).
  pose proof (reachable_cells_distinct _ Hreach') as Hnd.
  pose proof (applyMove_moves _ _ _ Hmove) as Hms. fold piece in Hms.
  apply applyMove_Return in Hmove as [Hprog [_ Hg']].
  fold piece in Hg'. rewrite Hms in Hnd.
  set (st1 := set_moves (state g)
                (moves (state g)
                 ++ [mkMove piece (row (move mv)) (col (move mv))])) in *.
  assert (Hst1 : moves st1
                 = moves (state g)
                   ++ [mkMove piece (row (move mv)) (col (move mv))])
    by reflexivity.
  rewrite <- Hst1 in Hnd.
  pose proof (nine_moves_is_full _ Hnd) as Hfull.
  split; [exact Hms|]. rewrite Hms, <- Hst1.
  destruct (_checkForWin st1 piece (row (move mv)) (col (move mv)))
    eqn:Hwin.
  - pose proof (checkForWin_sound _ _ _ _ Hnd Hwin) as Hline.
    rewrite Hg'. simpl. repeat split; congruence.
  - rewrite Hg'. rewrite Hfull. split; [|split].
    + intros Hbefore Hafter.
      rewrite (checkForWin_complete _ _ _ _ _ Hst1 Hnd Hbefore) in Hwin.
      congruence.
    + intros _ Htie. rewrite Htie. simpl. split; reflexivity.
    + intros _ Htie. rewrite Htie. simpl. split; [exact Hprog|reflexivity].
Qed.

Lemma applyMove_outcome_witness :
  (status (state game_x_won) = OVER
   /\ winner (state game_x_won) = Some "alice")
  /\ (status (state game_tied) = OVER /\ winner (state game_tied) = None)
  /\ (status (state game_opened) = IN_PROGRESS
      /\ winner (state game_opened) = winner (state game_ab)).
Proof.
  split; [|split].
  - apply (proj1 (proj2 (applyMove_outcome
                           game_x_about_to_win (play alice G0 G2) game_x_won
                           (reachable_run _ _ _ (reach_new "g")
                                          run_game_x_about_to_win)
                           eq_refl)));
      reflexivity.
  - apply (proj1 (proj2 (proj2 (applyMove_outcome
                                  game_last_cell (play alice G2 G2) game_tied
                                  (reachable_run _ _ _ (reach_new "g")
                                                 run_game_last_cell)
                                  eq_refl))));
      reflexivity.
  - apply (proj2 (proj2 (proj2 (applyMove_outcome
                                  game_ab (play alice G0 G0) game_opened
                                  (reachable_run _ _ _ (reach_new "g")
                                                 run_game_ab)
                                  eq_refl))));
      reflexivity.
Defined.

(** ** The roster of a game reached from a fresh game *)

Lemma join_players (g : TicTacToeGame) (p : Player.t) (g' : TicTacToeGame) :
  join g p = Return g' ->
  _players g' = _players g ++ [p]
  /\ ~ In (Player.id p) (map Player.id (_players g))
  /\ List.length (_players g) < 2.
Proof.
  unfold join, _join. intros H.
  destruct (Nat.leb 2 (List.length (_players g))) eqn:Hfull;
    [discriminate H|].
  destruct (existsb _ (_players g)) eqn:Hdup; [discriminate H|].
  injection H as <-. split; [reflexivity|]. split.
  - intros Hin. rewrite (existsb_id_In _ _ Hin) in Hdup. discriminate Hdup.
  - apply Nat.leb_gt. exact Hfull.
Qed.

Lemma leave_players (g : TicTacToeGame) (p : Player.t) (g' : TicTacToeGame) :
  leave g p = Return g' ->
  exists n,
    _players g'
    = filter (fun q => negb (String.eqb (Player.id q) (Player.id p)))
             (splice1 n (_players g)).
Proof.
  unfold leave, _leave. intros H.
  destruct (findIndex _ (_players g)) as [n|]; [|discriminate H].
  injection H as <-. exists n. reflexivity.
Qed.

Lemma splice1_length {A : Type} (n : nat) (l : list A) :
  List.length (splice1 n l) <= List.length l.
Proof.
  revert n. induction l as [|a t IH]; intros n; [destruct n; simpl; lia|].
  destruct n as [|n]; simpl; [lia|]. specialize (IH n). lia.
Qed.

(** The roster of a reachable game holds at most two players, of distinct
    identifiers. *)
Lemma reachable_roster (g : TicTacToeGame) :
  reachable g ->
  NoDup (map Player.id (_players g)) /\ List.length (_players g) <= 2.
Proof.
  induction 1 as [gid|g a g' Hreach [IHnd IHlen] Hstep];
    [split; [constructor|simpl; lia]|].
  destruct a as [p|p|mv]; simpl in Hstep.
  - apply join_players in Hstep as [-> [Hnew Hroom]]. split.
    + rewrite map_app. simpl. apply NoDup_snoc; assumption.
    + rewrite length_app. simpl. lia.
  - apply leave_players in Hstep as [n ->]. split.
    + apply NoDup_map_filter, NoDup_map_splice1. exact IHnd.
    + pose proof (filter_length_le
                    (fun q => negb (String.eqb (Player.id q) (Player.id p)))
                    (splice1 n (_players g))) as Hf.
      pose proof (splice1_length n (_players g)) as Hs. lia.
  - apply applyMove_Return in Hstep as [_ [_ ->]]. simpl. split; assumption.
Qed.

(** * Further properties of the engine *)

(** ** Which moves [applyMove] accepts *)

Lemma find_id_In (ps : list Player.t) (i : string) :
  In i (map Player.id ps) ->
  exists q,
    find (fun player => String.eqb (Player.id player) i) ps = Some q
    /\ Player.id q = i.
Proof.
  induction ps as [|a t IH]; simpl; [intros []|].
  destruct (String.eqb_spec (Player.id a) i) as [Heq|Hneq].
  - intros _. exists a. auto.
  - intros [Ha|Ht]; [contradiction|exact (IH Ht)].
Qed.

Lemma find_id_not_In (ps : list Player.t) (i : string) :
  ~ In i (map Player.id ps) ->
  find (fun player => String.eqb (Player.id player) i) ps = None.
Proof.
  induction ps as [|a t IH]; simpl; [reflexivity|]. intros Hnot.
  destruct (String.eqb_spec (Player.id a) i) as [Heq|Hneq].
  - exfalso. apply Hnot. left. exact Heq.
  - apply IH. intros Hin. apply Hnot. right. exact Hin.
Qed.

Lemma strict_eq_iff (s : string) (v : option string) :
  strict_eq s v = true <-> v = Some s.
Proof.
  destruct v as [t|]; simpl; [|split; discriminate].
  rewrite String.eqb_eq. split; [intros ->; reflexivity|intros [= ->]; auto].
Qed.

Lemma status_eqb_eq (s t : GameStatus) : status_eqb s t = true <-> s = t.
Proof. destruct s, t; simpl; split; congruence. Qed.

(** For a player on the roster, [applyMove] goes through its three remaining
    checks with the identifier the move carries. *)
Lemma applyMove_on_roster (g : TicTacToeGame) (mv : GameMove) :
  In (playerID mv) (map Player.id (_players g)) ->
  applyMove g mv
  = if negb (truthy (x (state g))) || negb (truthy (o (state g)))
       || negb (status_eqb (status (state g)) IN_PROGRESS)
    then Throw (JsError "GAME_NOT_IN_PROGRESS_MESSAGE")
    else if strict_neq (playerID mv) (x (state g))
            && strict_neq (playerID mv) (o (state g))
    then Throw (JsError "MOVE_NOT_YOUR_TURN_MESSAGE")
    else if occupied (moves (state g)) (row (move mv), col (move mv))
    then Throw (JsError "BOARD_POSITION_NOT_EMPTY_MESSAGE")
    else
      let piece := piece_of g (playerID mv) in
      let st1 := set_moves (state g)
                   (moves (state g)
                    ++ [mkMove piece (row (move mv)) (col (move mv))]) in
      Return (set_state g
                (if _checkForWin st1 piece (row (move mv)) (col (move mv))
                 then set_winner (set_status st1 OVER) (Some (playerID mv))
                 else if Nat.eqb (List.length (moves st1)) 9
                      then set_winner (set_status st1 OVER) None
                      else st1)).
Proof.
  intros Hin. destruct (find_id_In _ _ Hin) as [q [Hfind Hq]].
  unfold applyMove. rewrite Hfind, Hq. reflexivity.
Qed.

(** X1. The checks of [applyMove] fail in a fixed order, in every state: a
    mover who is not on the roster gets the not-in-game error, whatever the
    status; a roster member gets the not-in-progress error when a slot is
    unset or the status is not IN_PROGRESS; in a game in progress a roster
    member who holds neither slot gets the not-your-turn error; and a slot
    holder who targets a taken cell gets the position-not-empty error. *)
Theorem applyMove_failure_order (g : TicTacToeGame) (mv : GameMove) :
  (~ In (playerID mv) (map Player.id (_players g)) ->
   applyMove g mv = Throw (JsError "PLAYER_NOT_IN_GAME_MESSAGE"))
  /\ (In (playerID mv) (map Player.id (_players g)) ->
      truthy (x (state g)) = false \/ truthy (o (state g)) = false
      \/ status (state g) <> IN_PROGRESS ->
      applyMove g mv = Throw (JsError "GAME_NOT_IN_PROGRESS_MESSAGE"))
  /\ (In (playerID mv) (map Player.id (_players g)) ->
      truthy (x (state g)) = true -> truthy (o (state g)) = true ->
      status (state g) = IN_PROGRESS ->
      x (state g) <> Some (playerID mv) ->
      o (state g) <> Some (playerID mv) ->
      applyMove g mv = Throw (JsError "MOVE_NOT_YOUR_TURN_MESSAGE"))
  /\ (In (playerID mv) (map Player.id (_players g)) ->
      truthy (x (state g)) = true -> truthy (o (state g)) = true ->
      status (state g) = IN_PROGRESS ->
      x (state g) = Some (playerID mv) \/ o (state g) = Some (playerID mv) ->
      occupied (moves (state g)) (row (move mv), col (move mv)) = true ->
      applyMove g mv = Throw (JsError "BOARD_POSITION_NOT_EMPTY_MESSAGE")).
Proof.
  split; [|split; [|split]].
  - intros Hnot. unfold applyMove. rewrite (find_id_not_In _ _ Hnot).
    reflexivity.
  - intros Hin Hcase. rewrite (applyMove_on_roster _ _ Hin).
    destruct Hcase as [Hx|[Ho|Hs]].
    + rewrite Hx. reflexivity.
    + rewrite Ho, orb_true_r. reflexivity.
    + destruct (status_eqb (status (state g)) IN_PROGRESS) eqn:He.
      * apply status_eqb_eq in He. contradiction.
      * rewrite !orb_true_r. reflexivity.
  - intros Hin Hx Ho Hs Hnx Hno. rewrite (applyMove_on_roster _ _ Hin).
    rewrite Hx, Ho, Hs. simpl. unfold strict_neq.
    destruct (strict_eq (playerID mv) (x (state g))) eqn:Ex;
      [apply strict_eq_iff in Ex; contradiction|].
    destruct (strict_eq (playerID mv) (o (state g))) eqn:Eo;
      [apply strict_eq_iff in Eo; contradiction|].
    reflexivity.
  - intros Hin Hx Ho Hs Hslot Hocc. rewrite (applyMove_on_roster _ _ Hin).
    rewrite Hx, Ho, Hs, Hocc. simpl. unfold strict_neq.
    destruct Hslot as [Hs'|Hs']; apply strict_eq_iff in Hs'; rewrite Hs';
      simpl; rewrite ?andb_false_r; reflexivity.
Qed.

Lemma applyMove_failure_order_witness :
  applyMove game_ab (play carol G0 G0)
  = Throw (JsError "PLAYER_NOT_IN_GAME_MESSAGE")
  /\ applyMove game_a (play alice G0 G0)
     = Throw (JsError "GAME_NOT_IN_PROGRESS_MESSAGE")
  /\ applyMove game_revived (play carol G1 G1)
     = Throw (JsError "MOVE_NOT_YOUR_TURN_MESSAGE")
  /\ applyMove game_opened (play bob G0 G0)
     = Throw (JsError "BOARD_POSITION_NOT_EMPTY_MESSAGE").
Proof.
  split; [|split; [|split]].
  - apply (proj1 (applyMove_failure_order game_ab (play carol G0 G0))).
    simpl. intros [H|[H|[]]]; discriminate H.
  - apply (proj1 (proj2 (applyMove_failure_order
                           game_a (play alice G0 G0)))).
    + simpl. left. reflexivity.
    + right. left. reflexivity.
  - apply (proj1 (proj2 (proj2 (applyMove_failure_order
                                  game_revived (play carol G1 G1)))));
      try reflexivity; simpl; try discriminate.
    right. left. reflexivity.
  - apply (proj2 (proj2 (proj2 (applyMove_failure_order
                                  game_opened (play bob G0 G0)))));
      try reflexivity; simpl.
    + right. left. reflexivity.
    + right. reflexivity.
Defined.

(** X2. [applyMove] accepts a move exactly when the mover is on the roster,
    both slots are set, the status is IN_PROGRESS, the mover holds one of the
    slots and the cell is free. Whose turn it is plays no part. *)
Theorem applyMove_accepts_iff (g : TicTacToeGame) (mv : GameMove) :
  (exists g', applyMove g mv = Return g')
  <-> In (playerID mv) (map Player.id (_players g))
      /\ truthy (x (state g)) = true
      /\ truthy (o (state g)) = true
      /\ status (state g) = IN_PROGRESS
      /\ (x (state g) = Some (playerID mv)
          \/ o (state g) = Some (playerID mv))
      /\ occupied (moves (state g)) (row (move mv), col (move mv)) = false.
Proof.
  split.
  - intros [g' H].
    destruct (in_dec string_dec (playerID mv) (map Player.id (_players g)))
      as [Hin|Hnot].
    + split; [exact Hin|]. rewrite (applyMove_on_roster _ _ Hin) in H.
      destruct (truthy (x (state g))); [|discriminate H].
      destruct (truthy (o (state g))); [|discriminate H].
      destruct (status_eqb (status (state g)) IN_PROGRESS) eqn:Hs;
        [|discriminate H].
      apply status_eqb_eq in Hs. simpl in H. unfold strict_neq in H.
      destruct (strict_eq (playerID mv) (x (state g))) eqn:Ex.
      * destruct (occupied _ _); [discriminate H|].
        apply strict_eq_iff in Ex. auto 10.
      * destruct (strict_eq (playerID mv) (o (state g))) eqn:Eo;
          [|discriminate H].
        destruct (occupied _ _); [discriminate H|].
        apply strict_eq_iff in Eo. auto 10.
    + unfold applyMove in H. rewrite (find_id_not_In _ _ Hnot) in H.
      discriminate H.
  - intros [Hin [Hx [Ho [Hs [Hslot Hfree]]]]].
    rewrite (applyMove_on_roster _ _ Hin). rewrite Hx, Ho, Hs, Hfree.
    simpl. unfold strict_neq.
    destruct Hslot as [Hs'|Hs']; apply strict_eq_iff in Hs'; rewrite Hs';
      simpl; rewrite ?andb_false_r; eexists; reflexivity.
Qed.

(** ** The board *)

(** X3. In a game reached from a fresh game no cell is recorded twice, so at
    most nine moves are ever recorded. *)
Theorem board_never_overfilled (g : TicTacToeGame) :
  reachable g ->
  NoDup (map cell_of (moves (state g)))
  /\ List.length (moves (state g)) <= 9.
Proof.
  intros Hreach. pose proof (reachable_cells_distinct g Hreach) as Hnd.
  split; [exact Hnd|].
  rewrite <- (length_map cell_of). change 9 with (List.length all_cells).
  apply NoDup_incl_length; [exact Hnd|]. intros c _. apply all_cells_In.
Qed.

Lemma board_never_overfilled_witness :
  NoDup (map cell_of (moves (state game_last_cell)))
  /\ List.length (moves (state game_last_cell)) <= 9.
Proof.
  apply (board_never_overfilled game_last_cell).
  exact (reachable_run _ _ _ (reach_new "g") run_game_last_cell).
Defined.

(** X4. Once every cell is taken, [applyMove] accepts no move, whoever moves
    and whatever the status. *)
Theorem full_board_accepts_no_move (g : TicTacToeGame) (mv : GameMove)
    (g' : TicTacToeGame) :
  board_full (moves (state g)) = true ->
  applyMove g mv <> Return g'.
Proof.
  intros Hfull Hmove.
  apply applyMove_Return in Hmove as [_ [Hfree _]].
  unfold board_full in Hfull. rewrite forallb_forall in Hfull.
  rewrite (Hfull _ (all_cells_In _)) in Hfree. discriminate Hfree.
Qed.

Lemma full_board_accepts_no_move_witness :
  applyMove game_tied (play bob G1 G1) <> Return game_tied.
Proof.
  apply (full_board_accepts_no_move game_tied (play bob G1 G1) game_tied).
  reflexivity.
Defined.

(** X5. On a board where no cell is recorded twice, the counts of
    [_checkForWin] report a win for [piece] at [(r, c)] exactly when [piece]
    holds the three cells of row [r], or of column [c], or, for a cell on a
    diagonal, of that diagonal. *)
Theorem checkForWin_iff_line_through_cell (st : TicTacToeGameState)
    (piece : Piece.t) (r c : TicTacToeGridPosition) :
  NoDup (map cell_of (moves st)) ->
  _checkForWin st piece r c = true
  <-> (forall d, In d (row_line r) -> holds piece (moves st) d = true)
      \/ (forall d, In d (col_line c) -> holds piece (moves st) d = true)
      \/ (r = c
          /\ forall d, In d diagonal1 -> holds piece (moves st) d = true)
      \/ (pos_num r + pos_num c = 2
          /\ forall d, In d diagonal2 -> holds piece (moves st) d = true).
Proof.
  intros Hnd. rewrite (checkForWin_through _ _ _ _ Hnd). unfold through.
  rewrite !orb_true_iff, !andb_true_iff, !forallb_forall.
  rewrite pos_eqb_eq, Nat.eqb_eq. tauto.
Qed.

Lemma checkForWin_iff_line_through_cell_witness :
  _checkForWin (state game_x_won) Piece.X G0 G2 = true
  <-> (forall d, In d (row_line G0) ->
                 holds Piece.X (moves (state game_x_won)) d = true)
      \/ (forall d, In d (col_line G2) ->
                    holds Piece.X (moves (state game_x_won)) d = true)
      \/ (G0 = G2
          /\ forall d, In d diagonal1 ->
                       holds Piece.X (moves (state game_x_won)) d = true)
      \/ (pos_num G0 + pos_num G2 = 2
          /\ forall d, In d diagonal2 ->
                       holds Piece.X (moves (state game_x_won)) d = true).
Proof.
  apply (checkForWin_iff_line_through_cell (state game_x_won) Piece.X G0 G2).
  simpl. repeat constructor; simpl; intuition discriminate.
Defined.

(** ** What the operations keep *)

Lemma join_Return (g : TicTacToeGame) (p : Player.t) (g' : TicTacToeGame) :
  join g p = Return g' ->
  _players g' = _players g ++ [p]
  /\ moves (state g') = moves (state g)
  /\ winner (state g') = winner (state g)
  /\ (truthy (x (state g)) = true -> x (state g') = x (state g))
  /\ (truthy (o (state g)) = true -> o (state g') = o (state g))
  /\ (truthy (x (state g)) = false ->
      x (state g') = Some (Player.id p) /\ o (state g') = o (state g))
  /\ (truthy (x (state g')) && truthy (o (state g')) = true ->
      status (state g') = IN_PROGRESS)
  /\ (truthy (x (state g')) && truthy (o (state g')) = false ->
      status (state g') = status (state g)).
Proof.
  unfold join, _join. intros H.
  destruct (Nat.leb 2 (List.length (_players g))); [discriminate H|].
  destruct (existsb _ (_players g)); [discriminate H|].
  injection H as <-. simpl.
  destruct (truthy (x (state g))) eqn:Hx;
    destruct (truthy (o (state g))) eqn:Ho; simpl;
    rewrite ?Hx, ?Ho; simpl;
    destruct (negb (String.eqb (Player.id p) "")) eqn:Hp; simpl;
    repeat split; intros; simpl in *;
    rewrite ?Hx, ?Ho, ?Hp in *; simpl in *;
    try discriminate; try congruence; auto.
Qed.

Lemma _leave_Return (g : TicTacToeGame) (p : Player.t) (g' : TicTacToeGame) :
  _leave g p = Return g' ->
  moves (state g') = moves (state g)
  /\ x (state g') = x (state g)
  /\ o (state g') = o (state g)
  /\ status (state g') <> IN_PROGRESS
  /\ exists n,
       findIndex (fun q => String.eqb (Player.id q) (Player.id p))
                 (_players g) = Some n
       /\ _players g' = splice1 n (_players g).
Proof.
  unfold _leave. intros H.
  destruct (findIndex _ (_players g)) as [n|] eqn:Hn; [|discriminate H].
  injection H as <-. simpl.
  assert (Hframe :
            forall st1,
              st1 = match splice1 n (_players g) with
                    | [remainingPlayer] =>
                        set_winner (set_status (state g) OVER)
                                   (Some (Player.id remainingPlayer))
                    | _ => set_status (state g) WAITING_TO_START
                    end ->
              moves st1 = moves (state g) /\ x st1 = x (state g)
              /\ o st1 = o (state g) /\ status st1 <> IN_PROGRESS).
  { intros st1 ->.
    destruct (splice1 n (_players g)) as [|q [|q' t]]; simpl;
      repeat split; discriminate. }
  destruct (Hframe _ eq_refl) as [H1 [H2 [H3 H4]]].
  repeat split; try assumption. exists n. split; reflexivity.
Qed.

Lemma leave_Return (g : TicTacToeGame) (p : Player.t) (g' : TicTacToeGame) :
  leave g p = Return g' ->
  moves (state g') = moves (state g)
  /\ x (state g') = x (state g)
  /\ o (state g') = o (state g)
  /\ status (state g') <> IN_PROGRESS.
Proof.
  unfold leave. intros H.
  destruct (_leave g p) as [g1|v] eqn:Hl; [|discriminate H].
  injection H as <-. simpl.
  apply _leave_Return in Hl as [H1 [H2 [H3 [H4 _]]]]. auto.
Qed.

Lemma applyMove_frame (g : TicTacToeGame) (mv : GameMove)
    (g' : TicTacToeGame) :
  applyMove g mv = Return g' ->
  id g' = id g /\ _players g' = _players g
  /\ x (state g') = x (state g) /\ o (state g') = o (state g)
  /\ (status (state g') = IN_PROGRESS \/ status (state g') = OVER).
Proof.
  intros H. apply applyMove_Return in H as [Hs [_ ->]]. simpl.
  repeat match goal with
         | |- context [if ?b then _ else _] => destruct b
         end; simpl; auto 10.
Qed.

(** X6. In a game reached from a fresh game, a status of IN_PROGRESS means
    that both slots are set and that the roster is not empty (it holds one or
    two players). *)
Theorem in_progress_has_both_slots (g : TicTacToeGame) :
  reachable g ->
  status (state g) = IN_PROGRESS ->
  truthy (x (state g)) = true
  /\ truthy (o (state g)) = true
  /\ 1 <= List.length (_players g) <= 2.
Proof.
  intros Hreach. pose proof (reachable_roster g Hreach) as [_ Hmax].
  cut (status (state g) = IN_PROGRESS ->
       truthy (x (state g)) = true /\ truthy (o (state g)) = true
       /\ 1 <= List.length (_players g)).
  { intros Hcut Hs. destruct (Hcut Hs) as [Hx [Ho Hmin]]. auto. }
  clear Hmax.
  induction Hreach as [gid|g a g' Hreach IH Hstep]; [discriminate|].
  intros Hs. destruct a as [p|p|mv]; simpl in Hstep.
  - apply join_Return in Hstep
      as [Hps [_ [_ [Hx [Ho [_ [_ Hsame]]]]]]].
    assert (Hlen : 1 <= List.length (_players g'))
      by (rewrite Hps, length_app; simpl; lia).
    destruct (truthy (x (state g')) && truthy (o (state g'))) eqn:Hboth.
    + apply andb_true_iff in Hboth as [Hx' Ho']. auto.
    + rewrite (Hsame eq_refl) in Hs. destruct (IH Hs) as [Hx0 [Ho0 _]].
      rewrite (Hx Hx0), (Ho Ho0), Hx0, Ho0 in Hboth. discriminate Hboth.
  - apply leave_Return in Hstep as [_ [_ [_ Hnot]]]. contradiction.
  - pose proof (applyMove_Return _ _ _ Hstep) as [Hprog _].
    apply applyMove_frame in Hstep as [_ [Hps [Hx [Ho _]]]].
    rewrite Hps, Hx, Ho. exact (IH Hprog).
Qed.

Lemma in_progress_has_both_slots_witness :
  truthy (x (state game_revived)) = true
  /\ truthy (o (state game_revived)) = true
  /\ 1 <= List.length (_players game_revived) <= 2.
Proof.
  apply (in_progress_has_both_slots game_revived).
  - exact (reachable_run _ _ _ (reach_new "g") run_game_revived).
  - reflexivity.
Defined.

Lemma step_slots (g : TicTacToeGame) (a : op) (g' : TicTacToeGame) :
  step g a = Return g' ->
  (truthy (x (state g)) = true -> x (state g') = x (state g))
  /\ (truthy (o (state g)) = true -> o (state g') = o (state g)).
Proof.
  destruct a as [p|p|mv]; simpl; intros H.
  - apply join_Return in H as [_ [_ [_ [Hx [Ho _]]]]]. auto.
  - apply leave_Return in H as [_ [Hx [Ho _]]]. auto.
  - apply applyMove_frame in H as [_ [_ [Hx [Ho _]]]]. auto.
Qed.

(** X7. A slot that is set is never reassigned or cleared: along any sequence
    of successful joins, leaves and moves, a set X slot keeps its player, and
    so does a set O slot, also after that player has left. *)
Theorem slots_fixed_once_set (g : TicTacToeGame) (ops : list op)
    (g' : TicTacToeGame) :
  run g ops = Return g' ->
  (truthy (x (state g)) = true -> x (state g') = x (state g))
  /\ (truthy (o (state g)) = true -> o (state g') = o (state g)).
Proof.
  revert g. induction ops as [|a rest IH]; simpl; intros g Hrun.
  - injection Hrun as <-. auto.
  - destruct (step g a) as [g1|v] eqn:Hstep; simpl in Hrun; [|discriminate].
    destruct (step_slots _ _ _ Hstep) as [Hx1 Ho1].
    destruct (IH _ Hrun) as [Hx Ho]. split; intros Hset.
    + rewrite <- (Hx1 Hset). apply Hx. rewrite (Hx1 Hset). exact Hset.
    + rewrite <- (Ho1 Hset). apply Ho. rewrite (Ho1 Hset). exact Hset.
Qed.

Lemma slots_fixed_once_set_witness :
  x (state game_revived) = x (state game_ab)
  /\ o (state game_revived) = o (state game_ab).
Proof.
  destruct (slots_fixed_once_set
              game_ab
              [OpMove (play alice G0 G0); OpMove (play alice G0 G1);
               OpMove (play alice G0 G2); OpLeave bob; OpJoin carol]
              game_revived eq_refl) as [Hx Ho].
  split; [apply Hx|apply Ho]; reflexivity.
Defined.

Lemma step_moves (g : TicTacToeGame) (a : op) (g' : TicTacToeGame) :
  step g a = Return g' ->
  exists later, moves (state g') = moves (state g) ++ later.
Proof.
  destruct a as [p|p|mv]; simpl; intros H.
  - exists []. rewrite (join_moves _ _ _ H), app_nil_r. reflexivity.
  - exists []. rewrite (leave_moves _ _ _ H), app_nil_r. reflexivity.
  - eexists. exact (applyMove_moves _ _ _ H).
Qed.

(** X8. The recorded moves are append-only: after any sequence of successful
    joins, leaves and moves, the moves recorded before are a prefix of the
    moves recorded after; no operation removes or rewrites a move, not even a
    join that restarts a finished game. *)
Theorem moves_append_only (g : TicTacToeGame) (ops : list op)
    (g' : TicTacToeGame) :
  run g ops = Return g' ->
  exists later, moves (state g') = moves (state g) ++ later.
Proof.
  revert g. induction ops as [|a rest IH]; simpl; intros g Hrun.
  - injection Hrun as <-. exists []. rewrite app_nil_r. reflexivity.
  - destruct (step g a) as [g1|v] eqn:Hstep; simpl in Hrun; [|discriminate].
    destruct (step_moves _ _ _ Hstep) as [l1 H1].
    destruct (IH _ Hrun) as [l2 H2].
    exists (l1 ++ l2). rewrite H2, H1, app_assoc. reflexivity.
Qed.

Lemma moves_append_only_witness :
  exists later,
    moves (state game_revived) = moves (state game_ab) ++ later.
Proof.
  apply (moves_append_only
           game_ab
           [OpMove (play alice G0 G0); OpMove (play alice G0 G1);
            OpMove (play alice G0 G2); OpLeave bob; OpJoin carol]
           game_revived).
  reflexivity.
Defined.

(** ** Joining and leaving *)

Lemma existsb_id_not_In (ps : list Player.t) (i : string) :
  ~ In i (map Player.id ps) ->
  existsb (fun p => String.eqb (Player.id p) i) ps = false.
Proof.
  intros Hnot. destruct (existsb _ ps) eqn:He; [|reflexivity].
  exfalso. apply Hnot. apply existsb_exists in He as [q [Hin Hq]].
  apply String.eqb_eq in Hq. apply in_map_iff. exists q. auto.
Qed.

(** X9. A join is accepted exactly when the roster has fewer than two players
    and the joiner's identifier is not on it; the status and the slots play no
    part, so a finished game accepts joins as well. *)
Theorem join_accepts_iff (g : TicTacToeGame) (p : Player.t) :
  (exists g', join g p = Return g')
  <-> List.length (_players g) < 2
      /\ ~ In (Player.id p) (map Player.id (_players g)).
Proof.
  split.
  - intros [g' H]. apply join_players in H as [_ [Hnew Hroom]]. auto.
  - intros [Hroom Hnew]. unfold join, _join.
    apply Nat.leb_gt in Hroom. rewrite Hroom.
    rewrite (existsb_id_not_In _ _ Hnew). simpl. eexists. reflexivity.
Qed.

Lemma leave_accepts (g : TicTacToeGame) (p : Player.t) :
  In (Player.id p) (map Player.id (_players g)) ->
  exists g', leave g p = Return g'.
Proof.
  intros Hin. destruct (findIndex_In _ _ Hin) as [n Hn].
  unfold leave, _leave. rewrite Hn. simpl. eexists. reflexivity.
Qed.

Lemma findIndex_None (ps : list Player.t) (i : string) :
  ~ In i (map Player.id ps) ->
  findIndex (fun q => String.eqb (Player.id q) i) ps = None.
Proof.
  induction ps as [|a t IH]; simpl; [reflexivity|]. intros Hnot.
  destruct (String.eqb_spec (Player.id a) i) as [Heq|Hneq].
  - exfalso. apply Hnot. left. exact Heq.
  - rewrite IH; [reflexivity|]. intros Hin. apply Hnot. right. exact Hin.
Qed.

(** X10. A leave by a player who is not on the roster fails with the
    not-in-game error, whatever the status. A leave by a player on the roster
    succeeds; afterwards no player of that identifier is on the roster, the
    roster is shorter, and the recorded moves and both slots are as before:
    the slot of the player who left stays assigned. *)
Theorem leave_removes_player_only (g : TicTacToeGame) (p : Player.t) :
  (~ In (Player.id p) (map Player.id (_players g)) ->
   leave g p = Throw (JsError "PLAYER_NOT_IN_GAME_MESSAGE"))
  /\ (In (Player.id p) (map Player.id (_players g)) ->
      exists g',
        leave g p = Return g'
        /\ ~ In (Player.id p) (map Player.id (_players g'))
        /\ List.length (_players g') < List.length (_players g)
        /\ moves (state g') = moves (state g)
        /\ x (state g') = x (state g)
        /\ o (state g') = o (state g)).
Proof.
  split.
  - intros Hnot. unfold leave, _leave. rewrite (findIndex_None _ _ Hnot).
    reflexivity.
  - intros Hin. destruct (leave_accepts _ _ Hin) as [g' Hleave].
    exists g'. split; [exact Hleave|].
    pose proof (leave_Return _ _ _ Hleave) as [Hm [Hx [Ho _]]].
    unfold leave in Hleave.
    destruct (_leave g p) as [g1|v] eqn:Hl; [|discriminate Hleave].
    injection Hleave as <-. simpl in *.
    apply _leave_Return in Hl as [_ [_ [_ [_ [n [Hn Hps]]]]]].
    split; [|split; [|auto]].
    + intros Hstill. apply in_map_iff in Hstill as [q [Hq Hstill]].
      apply filter_In in Hstill as [_ Hkeep].
      rewrite Hq, String.eqb_refl in Hkeep. discriminate Hkeep.
    + rewrite Hps.
      pose proof (filter_length_le
                    (fun q => negb (String.eqb (Player.id q) (Player.id p)))
                    (splice1 n (_players g))) as Hf.
      assert (Hs : S (List.length (splice1 n (_players g)))
                   = List.length (_players g)).
      { clear -Hn. revert n Hn.
        induction (_players g) as [|a t IH]; simpl; intros n Hn;
          [discriminate|].
        destruct (String.eqb (Player.id a) (Player.id p)).
        - injection Hn as <-. reflexivity.
        - destruct (findIndex _ t) as [m|]; [|discriminate].
          injection Hn as <-. simpl. rewrite (IH m eq_refl). reflexivity. }
      lia.
Qed.

Lemma leave_removes_player_only_witness :
  leave game_a bob = Throw (JsError "PLAYER_NOT_IN_GAME_MESSAGE")
  /\ exists g',
       leave game_ab bob = Return g'
       /\ ~ In (Player.id bob) (map Player.id (_players g'))
       /\ List.length (_players g') < List.length (_players game_ab)
       /\ moves (state g') = moves (state game_ab)
       /\ x (state g') = x (state game_ab)
       /\ o (state g') = o (state game_ab).
Proof.
  split.
  - apply (proj1 (leave_removes_player_only game_a bob)).
    simpl. intros [H|[]]. discriminate H.
  - apply (proj2 (leave_removes_player_only game_ab bob)).
    simpl. right. left. reflexivity.
Defined.

(** X11. After a successful leave the status is OVER or WAITING_TO_START, so
    [applyMove] accepts no move until a later join sets the status again. *)
Theorem no_move_right_after_leave (g : TicTacToeGame) (p : Player.t)
    (g' : TicTacToeGame) :
  leave g p = Return g' ->
  status (state g') <> IN_PROGRESS
  /\ forall mv g'', applyMove g' mv <> Return g''.
Proof.
  intros Hleave. apply leave_Return in Hleave as [_ [_ [_ Hnot]]].
  split; [exact Hnot|]. intros mv g'' Hmove.
  apply applyMove_Return in Hmove as [Hprog _]. contradiction.
Qed.

Lemma no_move_right_after_leave_witness :
  status (state game_b_alone) <> IN_PROGRESS
  /\ forall mv g'', applyMove game_b_alone mv <> Return g''.
Proof.
  apply (no_move_right_after_leave game_ab alice game_b_alone).
  reflexivity.
Defined.

Lemma findIndex_snoc (ps : list Player.t) (p : Player.t) :
  ~ In (Player.id p) (map Player.id ps) ->
  findIndex (fun q => String.eqb (Player.id q) (Player.id p)) (ps ++ [p])
  = Some (List.length ps).
Proof.
  induction ps as [|a t IH]; simpl; intros Hnot.
  - rewrite String.eqb_refl. reflexivity.
  - destruct (String.eqb_spec (Player.id a) (Player.id p)) as [Heq|Hneq].
    + exfalso. apply Hnot. left. exact Heq.
    + rewrite IH; [reflexivity|]. intros Hin. apply Hnot. right. exact Hin.
Qed.

Lemma splice1_snoc {A : Type} (l : list A) (a : A) :
  splice1 (List.length l) (l ++ [a]) = l.
Proof.
  induction l as [|b t IH]; simpl; [reflexivity|]. rewrite IH. reflexivity.
Qed.

(** X12. A join followed by a leave of the same player always succeeds and
    gives back the roster and the recorded moves as they were before the
    join. *)
Theorem join_then_leave_restores_roster (g : TicTacToeGame) (p : Player.t)
    (g1 : TicTacToeGame) :
  join g p = Return g1 ->
  exists g2,
    leave g1 p = Return g2
    /\ _players g2 = _players g
    /\ moves (state g2) = moves (state g).
Proof.
  intros Hjoin.
  pose proof (join_moves _ _ _ Hjoin) as Hm1.
  apply join_players in Hjoin as [Hps [Hnew _]].
  assert (Hin : In (Player.id p) (map Player.id (_players g1))).
  { rewrite Hps, map_app. apply in_or_app. right. left. reflexivity. }
  destruct (leave_accepts _ _ Hin) as [g2 Hleave].
  exists g2. split; [exact Hleave|].
  pose proof (leave_moves _ _ _ Hleave) as Hm2.
  split; [|congruence].
  unfold leave in Hleave.
  destruct (_leave g1 p) as [g1'|v] eqn:Hl; [|discriminate Hleave].
  injection Hleave as <-. simpl.
  apply _leave_Return in Hl as [_ [_ [_ [_ [n [Hn Hps']]]]]].
  rewrite Hps, (findIndex_snoc _ _ Hnew) in Hn. injection Hn as <-.
  rewrite Hps', Hps, splice1_snoc.
  apply filter_not_i_absent. exact Hnew.
Qed.

Lemma join_then_leave_restores_roster_witness :
  exists g2,
    leave game_ab bob = Return g2
    /\ _players g2 = _players game_a
    /\ moves (state g2) = moves (state game_a).
Proof.
  apply (join_then_leave_restores_roster game_a bob game_ab).
  reflexivity.
Defined.

Lemma not_slot_holder_refused (g : TicTacToeGame) (mv : GameMove) :
  In (playerID mv) (map Player.id (_players g)) ->
  truthy (x (state g)) = true -> truthy (o (state g)) = true ->
  status (state g) = IN_PROGRESS ->
  x (state g) <> Some (playerID mv) ->
  o (state g) <> Some (playerID mv) ->
  applyMove g mv = Throw (JsError "MOVE_NOT_YOUR_TURN_MESSAGE").
Proof.
  intros Hin Hx Ho Hs Hnx Hno. rewrite (applyMove_on_roster _ _ Hin).
  rewrite Hx, Ho, Hs. simpl. unfold strict_neq.
  destruct (strict_eq (playerID mv) (x (state g))) eqn:Ex;
    [apply strict_eq_iff in Ex; contradiction|].
  destruct (strict_eq (playerID mv) (o (state g))) eqn:Eo;
    [apply strict_eq_iff in Eo; contradiction|].
  reflexivity.
Qed.

(** X13. A player who joins when both slots are already set gets no slot: the
    slots stay with their players, the status becomes IN_PROGRESS, and every
    move of the new player fails with the not-your-turn error. *)
Theorem late_joiner_cannot_move (g : TicTacToeGame) (p : Player.t)
    (g' : TicTacToeGame) (mv : GameMove) :
  truthy (x (state g)) = true ->
  truthy (o (state g)) = true ->
  x (state g) <> Some (Player.id p) ->
  o (state g) <> Some (Player.id p) ->
  join g p = Return g' ->
  playerID mv = Player.id p ->
  x (state g') = x (state g)
  /\ o (state g') = o (state g)
  /\ status (state g') = IN_PROGRESS
  /\ applyMove g' mv = Throw (JsError "MOVE_NOT_YOUR_TURN_MESSAGE").
Proof.
  intros Hx Ho Hnx Hno Hjoin Hid.
  apply join_Return in Hjoin
    as [Hps [_ [_ [Hx' [Ho' [_ [Hstart _]]]]]]].
  specialize (Hx' Hx). specialize (Ho' Ho).
  assert (Hs : status (state g') = IN_PROGRESS)
    by (apply Hstart; rewrite Hx', Ho', Hx, Ho; reflexivity).
  repeat (split; [assumption|]).
  apply not_slot_holder_refused.
  - rewrite Hps, map_app, Hid. apply in_or_app. right. left. reflexivity.
  - rewrite Hx'. exact Hx.
  - rewrite Ho'. exact Ho.
  - exact Hs.
  - rewrite Hx', Hid. exact Hnx.
  - rewrite Ho', Hid. exact Hno.
Qed.

Lemma late_joiner_cannot_move_witness :
  x (state game_revived) = x (state game_x_won_bob_left)
  /\ o (state game_revived) = o (state game_x_won_bob_left)
  /\ status (state game_revived) = IN_PROGRESS
  /\ applyMove game_revived (play carol G1 G1)
     = Throw (JsError "MOVE_NOT_YOUR_TURN_MESSAGE").
Proof.
  apply (late_joiner_cannot_move game_x_won_bob_left carol game_revived
                                 (play carol G1 G1));
    try reflexivity; simpl; discriminate.
Defined.

(** X14. The roster of a game reached from a fresh game never holds more than
    two players, and no two of them share an identifier. *)
Theorem roster_at_most_two_distinct (g : TicTacToeGame) :
  reachable g ->
  List.length (_players g) <= 2 /\ NoDup (map Player.id (_players g)).
Proof.
  intros Hreach. destruct (reachable_roster g Hreach) as [Hnd Hlen]. auto.
Qed.

Lemma roster_at_most_two_distinct_witness :
  List.length (_players game_revived) <= 2
  /\ NoDup (map Player.id (_players game_revived)).
Proof.
  apply (roster_at_most_two_distinct game_revived).
  exact (reachable_run _ _ _ (reach_new "g") run_game_revived).
Defined.

(** * Further properties of the router *)

Lemma join_id (g : TicTacToeGame) (p : Player.t) (g' : TicTacToeGame) :
  join g p = Return g' -> id g' = id g.
Proof.
  unfold join, _join. intros H.
  destruct (Nat.leb 2 (List.length (_players g))); [discriminate H|].
  destruct (existsb _ (_players g)); [discriminate H|].
  injection H as <-. reflexivity.
Qed.

Lemma leave_id (g : TicTacToeGame) (p : Player.t) (g' : TicTacToeGame) :
  leave g p = Return g' -> id g' = id g.
Proof.
  unfold leave, _leave. intros H.
  destruct (findIndex _ (_players g)); [|discriminate H].
  injection H as <-. reflexivity.
Qed.

Lemma leave_Return_In (g : TicTacToeGame) (p : Player.t)
    (g' : TicTacToeGame) :
  leave g p = Return g' -> In (Player.id p) (map Player.id (_players g)).
Proof.
  intros H.
  destruct (in_dec string_dec (Player.id p) (map Player.id (_players g)))
    as [Hin|Hnot]; [exact Hin|].
  unfold leave, _leave in H. rewrite (findIndex_None _ _ Hnot) in H.
  discriminate H.
Qed.

Section RouterFrame.
Variable M : ErrorMessages.

Lemma dispatch_frame (a a' : TicTacToeGameArea) (c : Command.t)
    (p : Player.t) :
  dispatch M a c p = Return a' ->
  areaChanged a' = areaChanged a
  /\ _history a' = _history a
  /\ option_map id (_game a') = option_map id (_game a).
Proof.
  unfold dispatch. intros H.
  destruct c as [|gid|gid mv|ty]; destruct (_game a) as [g|] eqn:Hg;
    try discriminate H.
  - destruct (join g p) as [g'|v] eqn:Hj; [|discriminate H].
    injection H as <-. simpl. rewrite (join_id _ _ _ Hj). auto.
  - injection H as <-. rewrite Hg. auto.
  - destruct (indexOf_is_minus1 _ _); [discriminate H|].
    destruct (leave g p) as [g'|v] eqn:Hl; [|discriminate H].
    injection H as <-. simpl. rewrite (leave_id _ _ _ Hl). auto.
  - destruct (negb _); [discriminate H|].
    destruct (applyMove g _) as [g'|v] eqn:Hm; [|discriminate H].
    injection H as <-. simpl.
    apply applyMove_frame in Hm as [-> _]. auto.
Qed.

(** X15. A call of [handleCommand] either succeeds, and then the observers are
    notified exactly once and the history is as before, or it throws the
    generic error, and then nothing has changed: no notification, the same
    game, the same history. *)
Theorem handleCommand_notifies_once_or_changes_nothing
    (a : TicTacToeGameArea) (c : Command.t) (p : Player.t) :
  (snd (handleCommand M a c p) = Return tt
   /\ areaChanged (fst (handleCommand M a c p)) = S (areaChanged a)
   /\ _history (fst (handleCommand M a c p)) = _history a)
  \/ handleCommand M a c p
     = (a, Throw (JsError "An unexpected error occurred.")).
Proof.
  destruct (dispatch M a c p) as [a'|v] eqn:Hd.
  - left. rewrite (handleCommand_Return M _ _ _ _ Hd). simpl.
    apply dispatch_frame in Hd as [Hn [Hh _]]. rewrite Hn, Hh. auto.
  - right. destruct (dispatch_throws_Error M _ _ _ _ Hd) as [message ->].
    exact (handleCommand_Throw M _ _ _ _ Hd).
Qed.

(** X16. No command creates, drops or replaces the engine: after
    [handleCommand] the area holds a game exactly when it held one before,
    and that game has the same identifier. *)
Theorem handleCommand_keeps_engine (a : TicTacToeGameArea) (c : Command.t)
    (p : Player.t) :
  option_map id (_game (fst (handleCommand M a c p)))
  = option_map id (_game a).
Proof.
  destruct (dispatch M a c p) as [a'|v] eqn:Hd.
  - rewrite (handleCommand_Return M _ _ _ _ Hd). simpl.
    apply dispatch_frame in Hd as [_ [_ Hid]]. exact Hid.
  - destruct (dispatch_throws_Error M _ _ _ _ Hd) as [message ->].
    rewrite (handleCommand_Throw M _ _ _ _ Hd). reflexivity.
Qed.

(** X17. For an area that holds a game, the outcome of a GameMove command is
    that of the engine's [applyMove] for the requesting player: when
    [applyMove] returns, the area holds the new game and the observers are
    notified; when it throws, the caller gets the generic error and the area
    is unchanged. The router's own status test and the game identifier in the
    command make no difference. *)
Theorem GameMove_follows_applyMove (g : TicTacToeGame)
    (history : list GameResult) (n : nat) (gid : string)
    (mv : TicTacToeMove) (p : Player.t) :
  handleCommand M (mkArea (Some g) history n) (Command.GameMove gid mv) p
  = match applyMove g (mkGameMove (Player.id p) "GameMove" mv) with
    | Return g' => (mkArea (Some g') history (S n), Return tt)
    | Throw _ =>
        (mkArea (Some g) history n,
         Throw (JsError "An unexpected error occurred."))
    end.
Proof.
  unfold handleCommand, dispatch. simpl.
  destruct (applyMove g (mkGameMove (Player.id p) "GameMove" mv))
    as [g'|v] eqn:Hm.
  - apply applyMove_Return in Hm as [Hs _]. rewrite Hs. reflexivity.
  - destruct (negb (status_eqb (status (state g)) IN_PROGRESS));
      [reflexivity|].
    destruct (applyMove_throws_Error _ _ _ Hm) as [message ->]. reflexivity.
Qed.

(** X18. A LeaveGame command succeeds exactly when the area holds a game, the
    player's identifier occurs inside the identifier of that game, and the
    player is on the roster. The game identifier in the command is not
    looked at. *)
Theorem LeaveGame_accepts_iff (a : TicTacToeGameArea) (gid : string)
    (p : Player.t) :
  snd (handleCommand M a (Command.LeaveGame gid) p) = Return tt
  <-> exists g,
        _game a = Some g
        /\ indexOf_is_minus1 (id g) (Player.id p) = false
        /\ In (Player.id p) (map Player.id (_players g)).
Proof.
  unfold handleCommand, dispatch. split.
  - intros H. destruct (_game a) as [g|] eqn:Hg; [|discriminate H].
    destruct (indexOf_is_minus1 (id g) (Player.id p)) eqn:Hsub;
      [discriminate H|].
    destruct (leave g p) as [g'|v] eqn:Hl.
    + exists g. split; [reflexivity|]. split; [exact Hsub|].
      exact (leave_Return_In _ _ _ Hl).
    + destruct (leave_throws_Error _ _ _ Hl) as [message ->].
      discriminate H.
  - intros [g [-> [-> Hin]]].
    destruct (leave_accepts _ _ Hin) as [g' ->]. reflexivity.
Qed.
End RouterFrame.
